(** * Akumuli compression primitives (include/compression.h)

    A shallow embedding of the base-128 integer codec, the byte-stream
    writer and reader built on it, and the delta and run-length stream
    transforms, followed by the properties of the specification that were
    checked against it. *)

From Stdlib Require Import ZArith List Lia Bool.
Import ListNotations.
Local Open Scope Z_scope.

(** ** Values, bytes and outcomes *)

(** The unsigned integer types [TVal] is instantiated with. *)
Inductive width : Type := W8 | W16 | W32 | W64.

Definition bits (w : width) : Z :=
  match w with W8 => 8 | W16 => 16 | W32 => 32 | W64 => 64 end.

(** An instantiation of the templates: the value type, and what the platform
    yields for a left shift of an [int] that the language leaves undefined
    (shift count of 32 or more, or a result that does not fit 32 bits).
    Nothing is assumed about [shl_undefined]. *)
Record target : Type := Target {
  TVal : width;
  shl_undefined : Z -> Z -> Z
}.

Definition modulus (t : target) : Z := 2 ^ bits (TVal t).

(** Conversion of an integer to [TVal]. *)
Definition wrap (t : target) (x : Z) : Z := x mod modulus t.

(** [unsigned char], as its value. *)
Abbreviation byte_t := Z (only parsing).

(** Outcome of a call: a value, a failed [assert], an access outside the
    underlying buffer, or a loop that did not end within its bound. *)
Inductive result (A : Type) : Type :=
| Ok (a : A)
| AssertFail
| OutOfBounds
| OutOfFuel.
Arguments Ok {A} a.
Arguments AssertFail {A}.
Arguments OutOfBounds {A}.
Arguments OutOfFuel {A}.

Definition bind {A B : Type} (r : result A) (k : A -> result B) : result B :=
  match r with
  | Ok a => k a
  | AssertFail => AssertFail
  | OutOfBounds => OutOfBounds
  | OutOfFuel => OutOfFuel
  end.

Notation "x <- r ;; k" := (bind r (fun x => k))
  (at level 61, r at next level, right associativity).
Notation "' p <- r ;; k" := (bind r (fun p => k))
  (at level 61, p pattern, r at next level, right associativity).

(** [assert(c)] *)
Definition assert (c : bool) : result unit :=
  if c then Ok tt else AssertFail.

(** ** Byte buffers addressed by position *)

(** [*p] as an rvalue. *)
Definition load (mem : list byte_t) (p : nat) : result byte_t :=
  match nth_error mem p with
  | Some b => Ok b
  | None => OutOfBounds
  end.

(** [*p = b] *)
Definition store (mem : list byte_t) (p : nat) (b : byte_t) : result (list byte_t) :=
  if (p <? length mem)%nat
  then Ok (firstn p mem ++ b :: skipn (S p) mem)
  else OutOfBounds.

(** ** Base128Int *)

Record Base128Int : Type := MkBase128Int { value_ : Z }.

(** Two's-complement reading of a 32-bit pattern as an [int]. *)
Definition to_int (x : Z) : Z :=
  if x <? 2 ^ 31 then x else x - 2 ^ 32.

(** [i << cnt] where [i] is a [byte_t] promoted to [int] and [cnt] a [TVal]. *)
Definition shl_int (t : target) (i cnt : Z) : Z :=
  if (cnt <? 32) && (i * 2 ^ cnt <? 2 ^ 32)
  then to_int (i * 2 ^ cnt)
  else shl_undefined t i cnt.

(** The loop of [Base128Int::get]; [bytes] is the buffer from [p] on. *)
Fixpoint get_loop (t : target) (bytes : list byte_t) (acc cnt : Z) (p : nat)
  : result (Base128Int * nat) :=
  match bytes with
  | [] => OutOfBounds
  | b :: rest =>
      let i := Z.land b 0x7F in
      let acc := wrap t (Z.lor acc (shl_int t i cnt)) in
      if Z.land b 0x80 =? 0
      then Ok (MkBase128Int acc, S p)
      else get_loop t rest acc (wrap t (cnt + 7)) (S p)
  end.

(** [Base128Int::get(begin, end)]: the decoded object and the position
    after the last byte read. *)
Definition get (t : target) (mem : list byte_t) (begin end_ : nat)
  : result (Base128Int * nat) :=
  _ <- assert (begin <? end_)%nat ;;
  get_loop t (skipn begin mem) 0 0 begin.

(** The loop of the bounded [Base128Int::put]; [room] is the distance from
    [p] to [end], so that [room = 0] is the test [p == end] made after each
    continuation byte. *)
Fixpoint put_range_loop (room : nat) (value : Z) (p : nat) (mem : list byte_t)
    (begin : nat) : result (nat * list byte_t) :=
  match room with
  | O => Ok (begin, mem)
  | S room' =>
      mem <- store mem p (Z.land value 0x7F) ;;
      let value := Z.shiftr value 7 in
      if negb (value =? 0) then
        b <- load mem p ;;
        mem <- store mem p (Z.lor b 0x80) ;;
        put_range_loop room' value (S p) mem begin
      else Ok (S p, mem)
  end.

(** [Base128Int::put(begin, end)]: the returned position and the buffer. *)
Definition put_range (self : Base128Int) (mem : list byte_t) (begin end_ : nat)
  : result (nat * list byte_t) :=
  if (end_ <=? begin)%nat then Ok (begin, mem)
  else put_range_loop (end_ - begin) (value_ self) begin mem begin.

(** Largest number of 7-bit groups of a value: ceil(bits / 7). *)
Definition max_groups (w : width) : nat := Z.to_nat ((bits w + 6) / 7).

(** The loop of the unchecked [Base128Int::put]; [p] is the container behind
    the insert iterator.  The loop of the source has no bound; [fuel] bounds
    the number of passes. *)
Fixpoint put_loop (fuel : nat) (value : Z) (p : list byte_t) : result (list byte_t) :=
  match fuel with
  | O => OutOfFuel
  | S fuel' =>
      let result := Z.land value 0x7F in
      let value := Z.shiftr value 7 in
      if negb (value =? 0)
      then put_loop fuel' value (p ++ [Z.lor result 0x80])
      else Ok (p ++ [result])
  end.

(** [Base128Int::put(Inserter&)] *)
Definition put_back (t : target) (self : Base128Int) (p : list byte_t)
  : result (list byte_t) :=
  put_loop (max_groups (TVal t)) (value_ self) p.

(** ** The stream surface shared by all layers *)

Class StreamWriter (t : target) (Stream : Type) : Type := {
  stream_put : Stream -> Z -> result Stream;
  stream_close : Stream -> result Stream;
  stream_size : Stream -> nat
}.
Arguments stream_put t {Stream _} _ _.
Arguments stream_close t {Stream _} _.
Arguments stream_size t {Stream _} _.

Class StreamReader (t : target) (Stream : Type) : Type := {
  stream_next : Stream -> result (Z * Stream)
}.
Arguments stream_next t {Stream _} _.

(** ** Base128StreamWriter / Base128StreamReader *)

Module Base128StreamWriter.

Record self : Type := Make { data_ : list byte_t }.

Definition put (t : target) (s : self) (value : Z) : result self :=
  let val := MkBase128Int value in
  data <- put_back t val (data_ s) ;;
  Ok (Make data).

Definition close (s : self) : result self := Ok s.

Definition size (s : self) : nat := length (data_ s).

End Base128StreamWriter.

#[export] Instance Base128StreamWriter_stream (t : target)
  : StreamWriter t Base128StreamWriter.self := {
  stream_put := Base128StreamWriter.put t;
  stream_close := Base128StreamWriter.close;
  stream_size := Base128StreamWriter.size
}.

Module Base128StreamReader.

Record self : Type := Make {
  data_ : list byte_t;
  pos_ : nat;
  end_ : nat
}.

Definition new (data : list byte_t) : self := Make data 0 (length data).

Definition next (t : target) (s : self) : result (Z * self) :=
  '(value, pos) <- get t (data_ s) (pos_ s) (end_ s) ;;
  Ok (value_ value, Make (data_ s) pos (end_ s)).

End Base128StreamReader.

#[export] Instance Base128StreamReader_stream (t : target)
  : StreamReader t Base128StreamReader.self := {
  stream_next := Base128StreamReader.next t
}.

(** ** DeltaStreamWriter / DeltaStreamReader *)

Module DeltaStreamWriter.

Record self (Stream : Type) : Type := Make { stream_ : Stream; prev_ : Z }.
Arguments Make {Stream} _ _.
Arguments stream_ {Stream} _.
Arguments prev_ {Stream} _.

Definition new {Stream : Type} (stream : Stream) : self Stream := Make stream 0.

Definition put (t : target) {Stream : Type} `{StreamWriter t Stream}
    (s : self Stream) (value : Z) : result (self Stream) :=
  _ <- assert (prev_ s <=? value) ;;
  let delta := wrap t (value - prev_ s) in
  stream <- stream_put t (stream_ s) delta ;;
  Ok (Make stream value).

Definition size (t : target) {Stream : Type} `{StreamWriter t Stream}
    (s : self Stream) : nat :=
  stream_size t (stream_ s).

Definition close (t : target) {Stream : Type} `{StreamWriter t Stream}
    (s : self Stream) : result (self Stream) :=
  stream <- stream_close t (stream_ s) ;;
  Ok (Make stream (prev_ s)).

End DeltaStreamWriter.

#[export] Instance DeltaStreamWriter_stream (t : target) (Stream : Type)
  `{StreamWriter t Stream} : StreamWriter t (DeltaStreamWriter.self Stream) := {
  stream_put := DeltaStreamWriter.put t;
  stream_close := DeltaStreamWriter.close t;
  stream_size := DeltaStreamWriter.size t
}.

Module DeltaStreamReader.

Record self (Stream : Type) : Type := Make { stream_ : Stream; prev_ : Z }.
Arguments Make {Stream} _ _.
Arguments stream_ {Stream} _.
Arguments prev_ {Stream} _.

Definition new {Stream : Type} (stream : Stream) : self Stream := Make stream 0.

Definition next (t : target) {Stream : Type} `{StreamReader t Stream}
    (s : self Stream) : result (Z * self Stream) :=
  '(delta, stream) <- stream_next t (stream_ s) ;;
  let value := wrap t (prev_ s + delta) in
  Ok (value, Make stream value).

End DeltaStreamReader.

#[export] Instance DeltaStreamReader_stream (t : target) (Stream : Type)
  `{StreamReader t Stream} : StreamReader t (DeltaStreamReader.self Stream) := {
  stream_next := DeltaStreamReader.next t
}.

(** ** RLEStreamWriter / RLEStreamReader *)

Module RLEStreamWriter.

Record self (Stream : Type) : Type :=
  Make { stream_ : Stream; prev_ : Z; reps_ : Z }.
Arguments Make {Stream} _ _ _.
Arguments stream_ {Stream} _.
Arguments prev_ {Stream} _.
Arguments reps_ {Stream} _.

Definition new {Stream : Type} (stream : Stream) : self Stream := Make stream 0 0.

(** The two writes that commit the pending run: count first, value second. *)
Definition commit (t : target) {Stream : Type} `{StreamWriter t Stream}
    (s : self Stream) : result Stream :=
  stream <- stream_put t (stream_ s) (reps_ s) ;;
  stream_put t stream (prev_ s).

Definition put (t : target) {Stream : Type} `{StreamWriter t Stream}
    (s : self Stream) (value : Z) : result (self Stream) :=
  s <- (if negb (value =? prev_ s) then
          stream <- (if negb (reps_ s =? 0) then commit t s
                     else Ok (stream_ s)) ;;
          Ok (Make stream value 0)
        else Ok s) ;;
  Ok (Make (stream_ s) (prev_ s) (wrap t (reps_ s + 1))).

Definition size (t : target) {Stream : Type} `{StreamWriter t Stream}
    (s : self Stream) : nat :=
  stream_size t (stream_ s).

Definition close (t : target) {Stream : Type} `{StreamWriter t Stream}
    (s : self Stream) : result (self Stream) :=
  stream <- commit t s ;;
  Ok (Make stream (prev_ s) (reps_ s)).

End RLEStreamWriter.

#[export] Instance RLEStreamWriter_stream (t : target) (Stream : Type)
  `{StreamWriter t Stream} : StreamWriter t (RLEStreamWriter.self Stream) := {
  stream_put := RLEStreamWriter.put t;
  stream_close := RLEStreamWriter.close t;
  stream_size := RLEStreamWriter.size t
}.

Module RLEStreamReader.

Record self (Stream : Type) : Type :=
  Make { stream_ : Stream; prev_ : Z; reps_ : Z }.
Arguments Make {Stream} _ _ _.
Arguments stream_ {Stream} _.
Arguments prev_ {Stream} _.
Arguments reps_ {Stream} _.

Definition new {Stream : Type} (stream : Stream) : self Stream := Make stream 0 0.

Definition next (t : target) {Stream : Type} `{StreamReader t Stream}
    (s : self Stream) : result (Z * self Stream) :=
  s <- (if reps_ s =? 0 then
          '(reps, stream) <- stream_next t (stream_ s) ;;
          '(prev, stream) <- stream_next t stream ;;
          Ok (Make stream prev reps)
        else Ok s) ;;
  Ok (prev_ s, Make (stream_ s) (prev_ s) (wrap t (reps_ s - 1))).

End RLEStreamReader.

#[export] Instance RLEStreamReader_stream (t : target) (Stream : Type)
  `{StreamReader t Stream} : StreamReader t (RLEStreamReader.self Stream) := {
  stream_next := RLEStreamReader.next t
}.

(** ** Producer and consumer passes *)

(** One [put] per value, in order. *)
Fixpoint put_all (t : target) {Stream : Type} `{StreamWriter t Stream}
    (s : Stream) (values : list Z) : result Stream :=
  match values with
  | [] => Ok s
  | v :: rest => s <- stream_put t s v ;; put_all t s rest
  end.

(** [n] calls of [next], in order. *)
Fixpoint read_n (t : target) {Stream : Type} `{StreamReader t Stream}
    (n : nat) (s : Stream) : result (list Z * Stream) :=
  match n with
  | O => Ok ([], s)
  | S n' =>
      '(v, s) <- stream_next t s ;;
      '(vs, s) <- read_n t n' s ;;
      Ok (v :: vs, s)
  end.

Definition values_of {A B : Type} (r : result (A * B)) : result A :=
  '(a, _) <- r ;; Ok a.

(** Encode one value into a fresh growable buffer, decode it from there. *)
Definition varint_roundtrip (t : target) (v : Z) : result Z :=
  data <- put_back t (MkBase128Int v) [] ;;
  '(value, _) <- get t data 0 (length data) ;;
  Ok (value_ value).

(** Delta over the byte stream: write [values], read as many back. *)
Definition delta_roundtrip (t : target) (values : list Z) : result (list Z) :=
  let writer := DeltaStreamWriter.new (Base128StreamWriter.Make []) in
  writer <- put_all t writer values ;;
  let data := Base128StreamWriter.data_ (DeltaStreamWriter.stream_ writer) in
  let reader := DeltaStreamReader.new (Base128StreamReader.new data) in
  values_of (read_n t (length values) reader).

(** The bytes left by RLE over the byte stream after [values] and [close]. *)
Definition rle_encode (t : target) (values : list Z) : result (list byte_t) :=
  let writer := RLEStreamWriter.new (Base128StreamWriter.Make []) in
  writer <- put_all t writer values ;;
  writer <- stream_close t writer ;;
  Ok (Base128StreamWriter.data_ (RLEStreamWriter.stream_ writer)).

Definition rle_decode (t : target) (n : nat) (data : list byte_t)
  : result (list Z) :=
  let reader := RLEStreamReader.new (Base128StreamReader.new data) in
  values_of (read_n t n reader).

Definition rle_roundtrip (t : target) (values : list Z) : result (list Z) :=
  data <- rle_encode t values ;;
  rle_decode t (length values) data.

(** RLE over Delta over the byte stream. *)
Definition rle_delta_encode (t : target) (values : list Z)
  : result (list byte_t) :=
  let writer :=
    RLEStreamWriter.new (DeltaStreamWriter.new (Base128StreamWriter.Make [])) in
  writer <- put_all t writer values ;;
  writer <- stream_close t writer ;;
  Ok (Base128StreamWriter.data_
        (DeltaStreamWriter.stream_ (RLEStreamWriter.stream_ writer))).

Definition rle_delta_roundtrip (t : target) (values : list Z)
  : result (list Z) :=
  data <- rle_delta_encode t values ;;
  let reader :=
    RLEStreamReader.new (DeltaStreamReader.new (Base128StreamReader.new data)) in
  values_of (read_n t (length values) reader).

(** Delta over RLE over the byte stream. *)
Definition delta_rle_roundtrip (t : target) (values : list Z)
  : result (list Z) :=
  let writer :=
    DeltaStreamWriter.new (RLEStreamWriter.new (Base128StreamWriter.Make [])) in
  writer <- put_all t writer values ;;
  writer <- stream_close t writer ;;
  let data := Base128StreamWriter.data_
                (RLEStreamWriter.stream_ (DeltaStreamWriter.stream_ writer)) in
  let reader :=
    DeltaStreamReader.new (RLEStreamReader.new (Base128StreamReader.new data)) in
  values_of (read_n t (length values) reader).

(** ** Vocabulary of the properties *)

(** A value of the value type. *)
Definition representable (t : target) (v : Z) : bool :=
  (0 <=? v) && (v <? modulus t).

(** The differences the delta writer forwards, from baseline [prev]. *)
Fixpoint deltas (t : target) (prev : Z) (values : list Z) : list Z :=
  match values with
  | [] => []
  | v :: rest => wrap t (v - prev) :: deltas t v rest
  end.

(** The running sums the delta reader returns, from baseline [prev]. *)
Fixpoint sums (t : target) (prev : Z) (ds : list Z) : list Z :=
  match ds with
  | [] => []
  | d :: rest => wrap t (prev + d) :: sums t (wrap t (prev + d)) rest
  end.

(** Non-decreasing from baseline [prev]. *)
Fixpoint ascending (prev : Z) (values : list Z) : bool :=
  match values with
  | [] => true
  | v :: rest => (prev <=? v) && ascending v rest
  end.

(** What the run-length writer in state ([prev], [reps]) forwards to the
    wrapped stream for [values] followed by [close]. *)
Fixpoint rle_out (t : target) (prev reps : Z) (values : list Z) : list Z :=
  match values with
  | [] => [reps; prev]
  | v :: rest =>
      if negb (v =? prev)
      then (if negb (reps =? 0) then [reps; prev] else [])
             ++ rle_out t v (wrap t (0 + 1)) rest
      else rle_out t prev (wrap t (reps + 1)) rest
  end.

(** Number of leading elements of [values] equal to [x]. *)
Fixpoint run_from (x : Z) (values : list Z) : nat :=
  match values with
  | v :: rest => if v =? x then S (run_from x rest) else O
  | [] => O
  end.

(** Every run of equal consecutive values is shorter than [limit]: at each
    position, the run that starts there is. *)
Fixpoint runs_below (limit : Z) (values : list Z) : bool :=
  match values with
  | [] => true
  | v :: rest =>
      (Z.of_nat (S (run_from v rest)) <? limit) && runs_below limit rest
  end.

(** The x86 [shl] on a 32-bit register: the count is taken modulo 32. *)
Definition shl_x86 (i cnt : Z) : Z := to_int ((i * 2 ^ (cnt mod 32)) mod 2 ^ 32).

Definition target_of (w : width) : target := Target w shl_x86.

(** ** Arithmetic of the 7-bit groups *)

Lemma land_0x7F (x : Z) : Z.land x 0x7F = x mod 128.
Proof.
  change 0x7F with (Z.ones 7). rewrite Z.land_ones by lia. reflexivity.
Qed.

Lemma shiftr_7 (x : Z) : Z.shiftr x 7 = x / 128.
Proof.
  rewrite Z.shiftr_div_pow2 by lia. reflexivity.
Qed.

Lemma land_0x80 (x : Z) : Z.land x 0x80 = 128 * ((x / 128) mod 2).
Proof.
  change 0x80 with (2 ^ 7). change 128 with (2 ^ 7).
  rewrite <- Z.testbit_spec' by lia.
  apply Z.bits_inj'. intros n Hn.
  rewrite Z.land_spec, Z.pow2_bits_eqb by lia.
  destruct (Z.eqb_spec 7 n) as [<- | Hne].
  - rewrite andb_true_r.
    destruct (Z.testbit x 7); cbn [Z.b2z].
    + rewrite Z.mul_1_r, Z.pow2_bits_eqb by lia. reflexivity.
    + rewrite Z.mul_0_r, Z.bits_0. reflexivity.
  - rewrite andb_false_r.
    destruct (Z.testbit x 7); cbn [Z.b2z].
    + rewrite Z.mul_1_r, Z.pow2_bits_eqb by lia.
      symmetry. apply Z.eqb_neq. exact Hne.
    + rewrite Z.mul_0_r, Z.bits_0. reflexivity.
Qed.

Lemma lor_disjoint (a x cnt : Z) :
  0 <= cnt -> 0 <= a < 2 ^ cnt -> Z.lor a (x * 2 ^ cnt) = a + x * 2 ^ cnt.
Proof.
  intros Hc Ha.
  rewrite <- (Z.add_lor_land a (x * 2 ^ cnt)).
  assert (E : Z.land a (x * 2 ^ cnt) = 0).
  { apply Z.bits_inj'. intros n Hn.
    rewrite Z.land_spec, Z.bits_0.
    destruct (Z.ltb_spec n cnt).
    - rewrite Z.mul_pow2_bits_low by lia. apply andb_false_r.
    - rewrite <- (Z.mod_small a (2 ^ cnt)) by lia.
      rewrite Z.mod_pow2_bits_high by lia. reflexivity. }
  rewrite E. lia.
Qed.

Lemma lor_0x80 (r : Z) : 0 <= r < 128 -> Z.lor r 0x80 = r + 128.
Proof.
  intros Hr. apply (lor_disjoint r 1 7); simpl; lia.
Qed.

Lemma modulus_cases (t : target) :
  modulus t = 2 ^ 8 \/ modulus t = 2 ^ 16 \/ modulus t = 2 ^ 32 \/ modulus t = 2 ^ 64.
Proof.
  unfold modulus. destruct (TVal t); simpl bits; auto.
Qed.

Lemma modulus_narrow (t : target) :
  bits (TVal t) <= 32 ->
  modulus t = 2 ^ 8 \/ modulus t = 2 ^ 16 \/ modulus t = 2 ^ 32.
Proof.
  unfold modulus. destruct (TVal t); simpl bits; auto. lia.
Qed.

Lemma wrap_small (t : target) (x : Z) : 0 <= x < modulus t -> wrap t x = x.
Proof.
  intros H. unfold wrap. apply Z.mod_small. exact H.
Qed.

Lemma wrap_lor (t : target) (a b : Z) :
  wrap t (Z.lor a b) = Z.lor (wrap t a) (wrap t b).
Proof.
  unfold wrap, modulus.
  assert (0 <= bits (TVal t)) by (destruct (TVal t); simpl; lia).
  rewrite <- !Z.land_ones by assumption.
  apply Z.land_lor_distr_l.
Qed.

(** With a value type of at most 32 bits, the [int] produced by a defined
    shift converts back to the exact group. *)
Lemma wrap_to_int (t : target) (x : Z) :
  bits (TVal t) <= 32 -> 0 <= x < modulus t -> wrap t (to_int x) = x.
Proof.
  intros Hb Hx. unfold wrap, to_int.
  destruct (modulus_narrow t Hb) as [E | [E | E]]; rewrite E in *;
    destruct (Z.ltb_spec x (2 ^ 31)); Z.div_mod_to_equations; lia.
Qed.

Lemma or_assign_exact (t : target) (acc i cnt : Z) :
  bits (TVal t) <= 32 ->
  0 <= cnt < 32 -> 0 <= acc < 2 ^ cnt -> 0 <= i ->
  acc + i * 2 ^ cnt < modulus t ->
  wrap t (Z.lor acc (shl_int t i cnt)) = acc + i * 2 ^ cnt.
Proof.
  intros Hb Hc Ha Hi Hlt.
  assert (Hm : modulus t <= 2 ^ 32).
  { destruct (modulus_narrow t Hb) as [E | [E | E]]; rewrite E; lia. }
  assert (Hx : 0 <= i * 2 ^ cnt) by (apply Z.mul_nonneg_nonneg; lia).
  unfold shl_int.
  replace (cnt <? 32) with true by (symmetry; apply Z.ltb_lt; lia).
  replace (i * 2 ^ cnt <? 2 ^ 32) with true by (symmetry; apply Z.ltb_lt; lia).
  cbn [andb].
  rewrite wrap_lor, wrap_to_int, wrap_small by lia.
  apply lor_disjoint; lia.
Qed.

(** A group shifted to a position below the value type's width: the shift
    count is below 32 when the type has at most 32 bits. *)
Lemma shift_count_narrow (t : target) (v cnt : Z) :
  bits (TVal t) <= 32 ->
  0 <= cnt -> (cnt = 0 \/ 0 < v) -> v * 2 ^ cnt < modulus t -> cnt < 32.
Proof.
  intros Hb Hc Hpos Hlt.
  destruct Hpos as [-> | Hpos]; [lia |].
  destruct (Z.ltb_spec cnt 32) as [| Hge]; [assumption | exfalso].
  assert (2 ^ 32 <= 2 ^ cnt) by (apply Z.pow_le_mono_r; lia).
  assert (modulus t <= 2 ^ 32)
    by (destruct (modulus_narrow t Hb) as [M | [M | M]]; rewrite M; lia).
  nia.
Qed.

(** ** The growable encoder *)

Lemma bind_ok {A B : Type} (r : result A) (k : A -> result B) (b : B) :
  bind r k = Ok b -> exists a, r = Ok a /\ k a = Ok b.
Proof.
  destruct r; simpl; intros H; try discriminate. eauto.
Qed.

Lemma put_loop_step (fuel : nat) (v : Z) (p : list byte_t) :
  0 <= v ->
  put_loop (S fuel) v p =
    if v <? 128 then Ok (p ++ [v])
    else put_loop fuel (v / 128) (p ++ [v mod 128 + 128]).
Proof.
  intros Hv. cbn [put_loop].
  rewrite shiftr_7, land_0x7F.
  destruct (Z.ltb_spec v 128).
  - rewrite Z.div_small, Z.mod_small by lia. reflexivity.
  - replace (v / 128 =? 0) with false
      by (symmetry; apply Z.eqb_neq; Z.div_mod_to_equations; lia).
    cbn [negb]. rewrite lor_0x80 by (apply Z.mod_pos_bound; lia).
    reflexivity.
Qed.

(** What the loop appends does not depend on what the container holds. *)
Lemma put_loop_app (fuel : nat) : forall (v : Z) (p : list byte_t),
  put_loop fuel v p = (bs <- put_loop fuel v [] ;; Ok (p ++ bs)).
Proof.
  induction fuel as [| fuel IH]; intros v p; [reflexivity |].
  cbn [put_loop].
  destruct (negb (Z.shiftr v 7 =? 0)).
  - rewrite IH. rewrite (IH _ ([] ++ _)).
    destruct (put_loop fuel (Z.shiftr v 7) []); simpl; try reflexivity.
    rewrite <- app_assoc. reflexivity.
  - reflexivity.
Qed.

(** The loop ends within [fuel] passes when the value has at most [fuel]
    groups; it then appended between one and [fuel] bytes. *)
Lemma put_loop_total (fuel : nat) : forall (v : Z),
  (1 <= fuel)%nat ->
  0 <= v < 2 ^ (7 * Z.of_nat fuel) ->
  exists bs, put_loop fuel v [] = Ok bs /\ (1 <= length bs <= fuel)%nat.
Proof.
  induction fuel as [| fuel IH]; intros v Hf Hv.
  - lia.
  - rewrite put_loop_step by lia.
    destruct (Z.ltb_spec v 128).
    + exists [v]. simpl. split; [reflexivity | lia].
    + rewrite put_loop_app.
      destruct (IH (v / 128)) as (bs & E & L).
      { destruct fuel; [simpl in Hv |]; lia. }
      { replace (7 * Z.of_nat (S fuel)) with (7 + 7 * Z.of_nat fuel) in Hv by lia.
        rewrite Z.pow_add_r in Hv by lia. change (2 ^ 7) with 128 in Hv.
        split; [apply Z.div_pos; lia |].
        apply Z.div_lt_upper_bound; lia. }
      rewrite E. simpl. eexists. split; [reflexivity |]. simpl. lia.
Qed.

(** A value that needs all [fuel] groups is written in exactly [fuel] bytes. *)
Lemma put_loop_length (fuel : nat) : forall (v : Z) (bs : list byte_t),
  2 ^ (7 * (Z.of_nat fuel - 1)) <= v ->
  put_loop fuel v [] = Ok bs ->
  length bs = fuel.
Proof.
  induction fuel as [| fuel IH]; intros v bs Hv E; [discriminate |].
  assert (0 < 2 ^ (7 * (Z.of_nat (S fuel) - 1))) by (apply Z.pow_pos_nonneg; lia).
  rewrite put_loop_step in E by lia.
  destruct (Z.ltb_spec v 128).
  - injection E as <-. destruct fuel as [| fuel]; [reflexivity |].
    exfalso.
    assert (2 ^ 7 <= 2 ^ (7 * (Z.of_nat (S (S fuel)) - 1)))
      by (apply Z.pow_le_mono_r; lia).
    change (2 ^ 7) with 128 in *. lia.
  - rewrite put_loop_app in E. apply bind_ok in E. destruct E as (bs' & E & E').
    injection E' as <-. simpl. f_equal.
    apply (IH (v / 128)); [| exact E].
    destruct fuel as [| fuel]; [discriminate |].
    replace (7 * (Z.of_nat (S (S fuel)) - 1))
      with (7 + 7 * (Z.of_nat (S fuel) - 1)) in Hv by lia.
    rewrite Z.pow_add_r in Hv by lia. change (2 ^ 7) with 128 in Hv.
    apply Z.div_le_lower_bound; lia.
Qed.

Lemma max_groups_bound (w : width) : 2 ^ bits w <= 2 ^ (7 * Z.of_nat (max_groups w)).
Proof.
  destruct w; vm_compute; discriminate.
Qed.

(** [Base128Int::put(Inserter&)] cannot fail on a value of the value type. *)
Lemma put_back_total (t : target) (v : Z) (p : list byte_t) :
  0 <= v < modulus t ->
  exists bs, put_back t (MkBase128Int v) p = Ok (p ++ bs)
             /\ put_back t (MkBase128Int v) [] = Ok bs
             /\ (1 <= length bs <= max_groups (TVal t))%nat.
Proof.
  intros Hv. unfold put_back. cbn [value_].
  destruct (put_loop_total (max_groups (TVal t)) v) as (bs & E & L).
  { destruct (TVal t); vm_compute; lia. }
  { pose proof (max_groups_bound (TVal t)). unfold modulus in Hv. lia. }
  exists bs. rewrite put_loop_app, E. auto.
Qed.

(** ** Decoding what the growable encoder wrote *)

Lemma get_loop_put_loop (t : target) (fuel : nat) :
  bits (TVal t) <= 32 ->
  forall (v : Z) (bs more : list byte_t) (acc cnt : Z) (p : nat),
  put_loop fuel v [] = Ok bs ->
  0 <= v -> 0 <= cnt -> 0 <= acc < 2 ^ cnt ->
  (cnt = 0 \/ 0 < v) ->
  acc + v * 2 ^ cnt < modulus t ->
  get_loop t (bs ++ more) acc cnt p
    = Ok (MkBase128Int (acc + v * 2 ^ cnt), (p + length bs)%nat).
Proof.
  intros Hb. induction fuel as [| fuel IH];
    intros v bs more acc cnt p E Hv Hc Ha Hpos Hlt; [discriminate |].
  rewrite put_loop_step in E by lia.
  assert (Hp : 0 < 2 ^ cnt) by (apply Z.pow_pos_nonneg; lia).
  assert (Hcnt : cnt < 32) by (apply (shift_count_narrow t v); try assumption; lia).
  destruct (Z.ltb_spec v 128) as [Hsmall | Hbig].
  - injection E as <-. cbn [app get_loop length].
    rewrite land_0x7F, land_0x80, (Z.mod_small v 128) by lia.
    rewrite or_assign_exact by (try lia; assumption).
    replace (v / 128) with 0 by (symmetry; apply Z.div_small; lia).
    simpl. rewrite Nat.add_1_r. reflexivity.
  - rewrite put_loop_app in E. apply bind_ok in E. destruct E as (bs' & E & E').
    injection E' as <-. cbn [app get_loop length].
    set (i := v mod 128). set (q := v / 128).
    assert (Hi : 0 <= i < 128) by (apply Z.mod_pos_bound; lia).
    assert (Hq : 0 < q) by (apply Z.div_str_pos; lia).
    assert (Hv' : v = 128 * q + i) by (apply Z.div_mod; lia).
    rewrite land_0x7F, land_0x80.
    replace ((i + 128) mod 128) with i by (Z.div_mod_to_equations; lia).
    replace ((i + 128) / 128) with 1 by (Z.div_mod_to_equations; lia).
    change (128 * (1 mod 2) =? 0) with false. cbv iota.
    assert (Hm : 256 <= modulus t)
      by (destruct (modulus_cases t) as [M | [M | [M | M]]]; rewrite M; lia).
    rewrite or_assign_exact by (try assumption; try lia; nia).
    rewrite (wrap_small t (cnt + 7)) by lia.
    assert (Hpow : 2 ^ (cnt + 7) = 128 * 2 ^ cnt)
      by (rewrite Z.pow_add_r by lia; change (2 ^ 7) with 128; lia).
    rewrite (IH q bs' more) by (try assumption; try lia; nia).
    f_equal. f_equal; [f_equal; nia | lia].
Qed.

(** Decoding at [begin] the bytes the growable encoder wrote there. *)
Lemma get_put_back (t : target) (v : Z) (bs front more : list byte_t) (end_ : nat) :
  bits (TVal t) <= 32 ->
  0 <= v < modulus t ->
  put_back t (MkBase128Int v) [] = Ok bs ->
  (length front < end_)%nat ->
  get t (front ++ bs ++ more) (length front) end_
    = Ok (MkBase128Int v, (length front + length bs)%nat).
Proof.
  intros Hb Hv E He. unfold get.
  replace (length front <? end_)%nat with true
    by (symmetry; apply Nat.ltb_lt; exact He).
  cbn [assert bind].
  rewrite skipn_app, skipn_all, Nat.sub_diag. cbn [skipn app].
  rewrite (get_loop_put_loop t _ Hb v bs more 0 0 _ E); try (simpl; lia).
  do 3 f_equal. lia.
Qed.

(** ** The bounded encoder *)

Lemma store_at (front rest : list byte_t) (old b : byte_t) :
  store (front ++ old :: rest) (length front) b = Ok (front ++ b :: rest).
Proof.
  unfold store.
  replace (length front <? length (front ++ old :: rest))%nat with true
    by (symmetry; apply Nat.ltb_lt; rewrite length_app; simpl; lia).
  f_equal. f_equal.
  - rewrite firstn_app, firstn_all, Nat.sub_diag. simpl. apply app_nil_r.
  - f_equal. rewrite skipn_app, skipn_all2 by lia.
    replace (S (length front) - length front)%nat with 1%nat by lia.
    reflexivity.
Qed.

Lemma load_at (front rest : list byte_t) (b : byte_t) :
  load (front ++ b :: rest) (length front) = Ok b.
Proof.
  unfold load. rewrite nth_error_app2, Nat.sub_diag by lia. reflexivity.
Qed.

(** The bounded loop against the bytes [bs] the growable loop writes for the
    same value: with room for all of them they replace the first bytes of
    the range and the position after them is returned; otherwise the whole
    range is overwritten with the first bytes of [bs] and [begin] is
    returned. *)
Lemma put_range_loop_spec (fuel : nat) :
  forall (v : Z) (bs front old back : list byte_t) (begin : nat),
  0 <= v ->
  put_loop fuel v [] = Ok bs ->
  put_range_loop (length old) v (length front) (front ++ old ++ back) begin =
    if (length bs <=? length old)%nat
    then Ok ((length front + length bs)%nat,
             front ++ bs ++ skipn (length bs) old ++ back)
    else Ok (begin, front ++ firstn (length old) bs ++ back).
Proof.
  induction fuel as [| fuel IH]; intros v bs front old back begin Hv E;
    [discriminate |].
  rewrite put_loop_step in E by lia.
  destruct old as [| o old].
  - cbn [length put_range_loop].
    replace (length bs <=? 0)%nat with false; [reflexivity |].
    symmetry. apply Nat.leb_gt.
    destruct (v <? 128); [injection E as <-; simpl; lia |].
    rewrite put_loop_app in E. apply bind_ok in E. destruct E as (bs' & _ & E).
    injection E as <-. simpl. lia.
  - cbn [length put_range_loop app].
    rewrite store_at. cbn [bind].
    rewrite shiftr_7, land_0x7F.
    destruct (Z.ltb_spec v 128) as [Hsmall | Hbig].
    + injection E as <-.
      rewrite Z.div_small, Z.mod_small by lia. cbn [Z.eqb negb length].
      cbn [Nat.leb skipn app]. rewrite Nat.add_1_r. reflexivity.
    + rewrite put_loop_app in E. apply bind_ok in E. destruct E as (bs' & E & E').
      injection E' as <-.
      replace (v / 128 =? 0) with false
        by (symmetry; apply Z.eqb_neq; Z.div_mod_to_equations; lia).
      cbn [negb]. rewrite load_at. cbn [bind].
      rewrite store_at. cbn [bind].
      rewrite lor_0x80 by (apply Z.mod_pos_bound; lia).
      replace (S (length front)) with (length (front ++ [v mod 128 + 128]))
        by (rewrite length_app; simpl; lia).
      replace (front ++ (v mod 128 + 128) :: old ++ back)
        with ((front ++ [v mod 128 + 128]) ++ old ++ back)
        by (rewrite <- app_assoc; reflexivity).
      rewrite (IH (v / 128) bs') by (try assumption; apply Z.div_pos; lia).
      cbn [length app Nat.leb skipn firstn].
      rewrite length_app, <- !app_assoc. cbn [length app].
      destruct (length bs' <=? length old)%nat; do 2 f_equal. lia.
Qed.

(** [Base128Int::put(begin, end)] on the range [old] of a buffer
    [front ++ old ++ back]. *)
Lemma put_range_spec (t : target) (v : Z) (bs front old back : list byte_t) :
  0 <= v ->
  put_back t (MkBase128Int v) [] = Ok bs ->
  put_range (MkBase128Int v) (front ++ old ++ back)
      (length front) (length front + length old) =
    if (length bs <=? length old)%nat
    then Ok ((length front + length bs)%nat,
             front ++ bs ++ skipn (length bs) old ++ back)
    else Ok (length front, front ++ firstn (length old) bs ++ back).
Proof.
  intros Hv E. unfold put_range. cbn [value_].
  destruct (Nat.leb_spec (length front + length old) (length front)) as [Hle | Hgt].
  - assert (length old = 0)%nat as Hnil by lia.
    apply length_zero_iff_nil in Hnil. subst old. cbn [length app firstn].
    replace (length bs <=? 0)%nat with false; [reflexivity |].
    symmetry. apply Nat.leb_gt.
    unfold put_back in E. cbn [value_] in E.
    destruct (max_groups (TVal t)) as [| fuel]; [discriminate |].
    rewrite put_loop_step in E by lia.
    destruct (v <? 128); [injection E as <-; simpl; lia |].
    rewrite put_loop_app in E. apply bind_ok in E. destruct E as (bs' & _ & E).
    injection E as <-. simpl. lia.
  - replace (length front + length old - length front)%nat with (length old) by lia.
    apply (put_range_loop_spec _ v bs front old back _ Hv E).
Qed.

(** ** Passes over any stream *)

Lemma representable_spec (t : target) (v : Z) :
  representable t v = true <-> 0 <= v < modulus t.
Proof.
  unfold representable. rewrite andb_true_iff, Z.leb_le, Z.ltb_lt. tauto.
Qed.

Lemma modulus_pos (t : target) : 256 <= modulus t.
Proof.
  destruct (modulus_cases t) as [M | [M | [M | M]]]; rewrite M; lia.
Qed.

Lemma wrap_range (t : target) (x : Z) : 0 <= wrap t x < modulus t.
Proof.
  unfold wrap. apply Z.mod_pos_bound. pose proof (modulus_pos t). lia.
Qed.

Section Passes.

Context (t : target).

Lemma put_all_app {Stream : Type} `{StreamWriter t Stream}
    (xs ys : list Z) : forall s : Stream,
  put_all t s (xs ++ ys) = (s' <- put_all t s xs ;; put_all t s' ys).
Proof.
  induction xs as [| x xs IH]; intros s; [reflexivity |].
  cbn [app put_all].
  destruct (stream_put t s x); simpl; auto.
Qed.

Lemma read_n_length {Stream : Type} `{StreamReader t Stream} (n : nat) :
  forall (s s' : Stream) (vs : list Z),
  read_n t n s = Ok (vs, s') -> length vs = n.
Proof.
  induction n as [| n IH]; intros s s' vs E.
  - injection E as <- _. reflexivity.
  - cbn [read_n] in E.
    apply bind_ok in E. destruct E as ([v s1] & _ & E).
    apply bind_ok in E. destruct E as ([vs1 s2] & E1 & E).
    injection E as <- _. simpl. f_equal. apply (IH _ _ _ E1).
Qed.

Lemma read_n_add {Stream : Type} `{StreamReader t Stream} (n m : nat) :
  forall s : Stream,
  read_n t (n + m) s =
    ('(xs, s1) <- read_n t n s ;;
     '(ys, s2) <- read_n t m s1 ;;
     Ok (xs ++ ys, s2)).
Proof.
  induction n as [| n IH]; intros s.
  - cbn [Nat.add read_n bind]. destruct (read_n t m s) as [[ys s2] | | |]; reflexivity.
  - cbn [Nat.add read_n].
    destruct (stream_next t s) as [[v s1] | | |]; cbn [bind]; try reflexivity.
    rewrite IH.
    destruct (read_n t n s1) as [[xs s2] | | |]; cbn [bind]; try reflexivity.
    destruct (read_n t m s2) as [[ys s3] | | |]; reflexivity.
Qed.

End Passes.

(** ** The byte stream carries every value of a type of at most 32 bits *)

Lemma base_put (t : target) (v : Z) (d : list byte_t) :
  0 <= v < modulus t ->
  exists bs, put_back t (MkBase128Int v) [] = Ok bs
             /\ (1 <= length bs)%nat
             /\ stream_put t (Base128StreamWriter.Make d) v
                = Ok (Base128StreamWriter.Make (d ++ bs)).
Proof.
  intros Hv. destruct (put_back_total t v d Hv) as (bs & E & E0 & L).
  exists bs. repeat split; try assumption; try lia.
  cbn [stream_put Base128StreamWriter_stream]. unfold Base128StreamWriter.put.
  cbn [Base128StreamWriter.data_]. rewrite E. reflexivity.
Qed.

Lemma base_next (t : target) (v : Z) (bs front more : list byte_t) (end_ : nat) :
  bits (TVal t) <= 32 ->
  0 <= v < modulus t ->
  put_back t (MkBase128Int v) [] = Ok bs ->
  (length front < end_)%nat ->
  stream_next t (Base128StreamReader.Make (front ++ bs ++ more) (length front) end_)
    = Ok (v, Base128StreamReader.Make (front ++ bs ++ more)
               (length front + length bs) end_).
Proof.
  intros Hb Hv E He.
  cbn [stream_next Base128StreamReader_stream]. unfold Base128StreamReader.next.
  cbn [Base128StreamReader.data_ Base128StreamReader.pos_ Base128StreamReader.end_].
  rewrite (get_put_back t v bs front more end_ Hb Hv E He). reflexivity.
Qed.

(** Writing [vs] after [d] appends bytes [d']; a reader placed at the end of
    [d] reads [vs] back and stops at the end of [d']. *)
Lemma base_roundtrip (t : target) (vs : list Z) :
  bits (TVal t) <= 32 ->
  forallb (representable t) vs = true ->
  forall d : list byte_t, exists d' : list byte_t,
    put_all t (Base128StreamWriter.Make d) vs
      = Ok (Base128StreamWriter.Make (d ++ d'))
    /\ forall (more : list byte_t) (end_ : nat),
        (length d + length d' <= end_)%nat ->
        read_n t (length vs)
            (Base128StreamReader.Make (d ++ d' ++ more) (length d) end_)
          = Ok (vs, Base128StreamReader.Make (d ++ d' ++ more)
                      (length d + length d') end_).
Proof.
  intros Hb. induction vs as [| v vs IH]; intros Hr d.
  - exists []. split.
    + rewrite app_nil_r. reflexivity.
    + intros more end_ _. cbn [length read_n]. rewrite Nat.add_0_r. reflexivity.
  - cbn [forallb] in Hr. apply andb_true_iff in Hr. destruct Hr as [Hv Hr].
    apply representable_spec in Hv.
    destruct (base_put t v d Hv) as (bs & E & L & P).
    destruct (IH Hr (d ++ bs)) as (d'' & W & R).
    exists (bs ++ d''). split.
    + cbn [put_all]. rewrite P. cbn [bind]. rewrite W, app_assoc. reflexivity.
    + intros more end_ He. rewrite length_app in He.
      cbn [length read_n]. rewrite <- app_assoc.
      rewrite (base_next t v bs d (d'' ++ more) end_ Hb Hv E) by lia.
      cbn [bind].
      specialize (R more end_). rewrite length_app, <- !app_assoc in R.
      rewrite R by lia. cbn [bind]. rewrite length_app.
      rewrite Nat.add_assoc. reflexivity.
Qed.

(** ** The delta transform over any stream *)

Lemma deltas_length (t : target) (values : list Z) : forall prev,
  length (deltas t prev values) = length values.
Proof.
  induction values as [| v vs IH]; intros prev; simpl; auto.
Qed.

Lemma deltas_representable (t : target) (values : list Z) : forall prev,
  forallb (representable t) (deltas t prev values) = true.
Proof.
  induction values as [| v vs IH]; intros prev; [reflexivity |].
  cbn [deltas forallb]. rewrite IH, andb_true_r.
  apply representable_spec, wrap_range.
Qed.

Lemma sums_deltas (t : target) (values : list Z) : forall prev,
  forallb (representable t) values = true ->
  sums t prev (deltas t prev values) = values.
Proof.
  induction values as [| v vs IH]; intros prev Hr; [reflexivity |].
  cbn [forallb] in Hr. apply andb_true_iff in Hr. destruct Hr as [Hv Hr].
  apply representable_spec in Hv.
  cbn [deltas sums].
  assert (E : wrap t (prev + wrap t (v - prev)) = v).
  { unfold wrap. pose proof (modulus_pos t).
    rewrite Z.add_mod_idemp_r by lia.
    replace (prev + (v - prev)) with v by lia.
    apply Z.mod_small. exact Hv. }
  rewrite E, IH by assumption. reflexivity.
Qed.

Lemma last_nonempty {A : Type} (l : list A) : forall z d d' : A,
  last (z :: l) d = last (z :: l) d'.
Proof.
  induction l as [| x l IH]; intros z d d'; [reflexivity |].
  change (last (x :: l) d = last (x :: l) d'). apply IH.
Qed.

Lemma last_cons {A : Type} (l : list A) (v d : A) : last (v :: l) d = last l v.
Proof.
  destruct l as [| z l]; [reflexivity |].
  change (last (z :: l) d = last (z :: l) v). apply last_nonempty.
Qed.

Section DeltaOverStream.

Context (t : target).

Lemma delta_put_all {Stream : Type} `{StreamWriter t Stream} (values : list Z) :
  forall (s : Stream) (prev : Z),
  ascending prev values = true ->
  put_all t (DeltaStreamWriter.Make s prev) values =
    (s' <- put_all t s (deltas t prev values) ;;
     Ok (DeltaStreamWriter.Make s' (last values prev))).
Proof.
  induction values as [| v vs IH]; intros s prev Ha; [reflexivity |].
  cbn [ascending] in Ha. apply andb_true_iff in Ha. destruct Ha as [Hle Ha].
  cbn [put_all deltas stream_put DeltaStreamWriter_stream].
  unfold DeltaStreamWriter.put. cbn [DeltaStreamWriter.prev_ DeltaStreamWriter.stream_].
  rewrite Hle. cbn [assert bind].
  destruct (stream_put t s (wrap t (v - prev))) as [s1 | | |]; cbn [bind];
    try reflexivity.
  rewrite (IH s1 v Ha).
  destruct (put_all t s1 (deltas t v vs)); cbn [bind]; try reflexivity.
  rewrite last_cons. reflexivity.
Qed.

Lemma delta_read_n {Stream : Type} `{StreamReader t Stream} (n : nat) :
  forall (s : Stream) (prev : Z),
  values_of (read_n t n (DeltaStreamReader.Make s prev)) =
    ('(ds, _) <- read_n t n s ;; Ok (sums t prev ds)).
Proof.
  induction n as [| n IH]; intros s prev; [reflexivity |].
  cbn [read_n stream_next DeltaStreamReader_stream].
  unfold DeltaStreamReader.next.
  cbn [DeltaStreamReader.prev_ DeltaStreamReader.stream_].
  destruct (stream_next t s) as [[d s1] | | |]; cbn [bind values_of];
    try reflexivity.
  specialize (IH s1 (wrap t (prev + d))). unfold values_of in IH.
  destruct (read_n t n (DeltaStreamReader.Make s1 (wrap t (prev + d))))
    as [[vs s2] | | |]; cbn [bind] in *;
    destruct (read_n t n s1) as [[ds s3] | | |]; cbn [bind] in *;
    try discriminate; try reflexivity.
  injection IH as ->. reflexivity.
Qed.

End DeltaOverStream.

(** X14: delta over the byte stream is lossless for a value type of at most
    32 bits: every non-decreasing sequence of its values put through the
    delta writer is returned, in order, by the delta reader over the bytes
    written. *)
Theorem delta_roundtrip_narrow (t : target) (values : list Z) :
  bits (TVal t) <= 32 ->
  forallb (representable t) values = true ->
  ascending 0 values = true ->
  delta_roundtrip t values = Ok values.
Proof.
  intros Hb Hr Ha. unfold delta_roundtrip, DeltaStreamWriter.new.
  rewrite (delta_put_all t values _ 0 Ha).
  destruct (base_roundtrip t (deltas t 0 values) Hb
              (deltas_representable t values 0) []) as (d' & W & R).
  rewrite W. cbn [bind app DeltaStreamWriter.stream_ Base128StreamWriter.data_].
  unfold DeltaStreamReader.new, Base128StreamReader.new.
  rewrite delta_read_n.
  specialize (R [] (length d')). cbn [app length Nat.add] in R.
  rewrite app_nil_r, deltas_length in R.
  rewrite R by lia. cbn [bind].
  rewrite sums_deltas by assumption. reflexivity.
Qed.

(** ** The run-length transform over any stream *)

Lemma rle_out_representable (t : target) (values : list Z) : forall prev reps,
  0 <= prev < modulus t -> 0 <= reps < modulus t ->
  forallb (representable t) values = true ->
  forallb (representable t) (rle_out t prev reps values) = true.
Proof.
  induction values as [| v vs IH]; intros prev reps Hp Hc Hr.
  - cbn [rle_out forallb].
    rewrite !(proj2 (representable_spec t _)) by assumption. reflexivity.
  - cbn [forallb] in Hr. apply andb_true_iff in Hr. destruct Hr as [Hv Hr].
    apply representable_spec in Hv. cbn [rle_out].
    destruct (negb (v =? prev)).
    + rewrite forallb_app, IH by (try assumption; apply wrap_range).
      destruct (negb (reps =? 0)); [| reflexivity].
      cbn [forallb].
      rewrite !(proj2 (representable_spec t _)) by assumption. reflexivity.
    + apply IH; try assumption. apply wrap_range.
Qed.

Section RLEOverStream.

Context (t : target).

(** The writer side: [values] then [close] are, for the wrapped stream, the
    puts of [rle_out]. *)
Lemma rle_put_all_close {Stream : Type} `{StreamWriter t Stream}
    (values : list Z) : forall (s : Stream) (prev reps : Z),
  (w <- put_all t (RLEStreamWriter.Make s prev reps) values ;;
   w <- stream_close t w ;;
   Ok (RLEStreamWriter.stream_ w))
  = put_all t s (rle_out t prev reps values).
Proof.
  induction values as [| v vs IH]; intros s prev reps.
  - cbn [put_all rle_out bind stream_close RLEStreamWriter_stream].
    unfold RLEStreamWriter.close, RLEStreamWriter.commit.
    cbn [RLEStreamWriter.stream_ RLEStreamWriter.prev_ RLEStreamWriter.reps_].
    destruct (stream_put t s reps) as [s1 | | |]; cbn [bind]; try reflexivity.
    destruct (stream_put t s1 prev) as [s2 | | |]; reflexivity.
  - cbn [put_all rle_out stream_put RLEStreamWriter_stream].
    unfold RLEStreamWriter.put at 1.
    cbn [RLEStreamWriter.stream_ RLEStreamWriter.prev_ RLEStreamWriter.reps_].
    destruct (negb (v =? prev)).
    + rewrite put_all_app.
      destruct (negb (reps =? 0)).
      * unfold RLEStreamWriter.commit.
        cbn [RLEStreamWriter.stream_ RLEStreamWriter.prev_ RLEStreamWriter.reps_
             put_all].
        destruct (stream_put t s reps) as [s1 | | |]; cbn [bind]; try reflexivity.
        destruct (stream_put t s1 prev) as [s2 | | |]; cbn [bind]; try reflexivity.
        cbn [RLEStreamWriter.stream_ RLEStreamWriter.prev_ RLEStreamWriter.reps_].
        apply IH.
      * cbn [bind put_all
             RLEStreamWriter.stream_ RLEStreamWriter.prev_ RLEStreamWriter.reps_].
        apply IH.
    + cbn [bind RLEStreamWriter.stream_ RLEStreamWriter.prev_ RLEStreamWriter.reps_].
      apply IH.
Qed.

(** The reader side, one step: with a pending run nothing is fetched. *)
Lemma rle_next_pending {Stream : Type} `{StreamReader t Stream}
    (s : Stream) (prev : Z) (k : nat) :
  Z.of_nat (S k) < modulus t ->
  stream_next t (RLEStreamReader.Make s prev (Z.of_nat (S k)))
    = Ok (prev, RLEStreamReader.Make s prev (Z.of_nat k)).
Proof.
  intros Hk. cbn [stream_next RLEStreamReader_stream].
  unfold RLEStreamReader.next.
  cbn [RLEStreamReader.stream_ RLEStreamReader.prev_ RLEStreamReader.reps_].
  replace (Z.of_nat (S k) =? 0) with false by (symmetry; apply Z.eqb_neq; lia).
  cbn [bind RLEStreamReader.stream_ RLEStreamReader.prev_ RLEStreamReader.reps_].
  rewrite wrap_small by lia.
  do 3 f_equal. lia.
Qed.

(** With no pending run, the next pair is fetched: count, then value. *)
Lemma rle_next_fetch {Stream : Type} `{StreamReader t Stream}
    (s s1 s2 : Stream) (prev0 prev : Z) (k : nat) :
  stream_next t s = Ok (Z.of_nat (S k), s1) ->
  stream_next t s1 = Ok (prev, s2) ->
  stream_next t (RLEStreamReader.Make s prev0 0)
    = stream_next t (RLEStreamReader.Make s2 prev (Z.of_nat (S k))).
Proof.
  intros E1 E2. cbn [stream_next RLEStreamReader_stream].
  unfold RLEStreamReader.next.
  cbn [RLEStreamReader.stream_ RLEStreamReader.prev_ RLEStreamReader.reps_].
  rewrite E1. cbn [bind]. rewrite E2. cbn [bind].
  replace (Z.of_nat (S k) =? 0) with false by (symmetry; apply Z.eqb_neq; lia).
  reflexivity.
Qed.

(** A pending run of [k] is returned by the next [k] calls. *)
Lemma rle_emit {Stream : Type} `{StreamReader t Stream}
    (n : nat) (s : Stream) (prev : Z) (k : nat) :
  Z.of_nat k < modulus t ->
  read_n t (k + n) (RLEStreamReader.Make s prev (Z.of_nat k)) =
    ('(l, s') <- read_n t n (RLEStreamReader.Make s prev 0) ;;
     Ok (repeat prev k ++ l, s')).
Proof.
  induction k as [| k IH]; intros Hk.
  - cbn [Nat.add Z.of_nat repeat app].
    destruct (read_n t n _) as [[l s'] | | |]; reflexivity.
  - cbn [Nat.add read_n]. rewrite rle_next_pending by assumption.
    cbn [bind]. rewrite IH by lia.
    destruct (read_n t n _) as [[l s'] | | |]; reflexivity.
Qed.

End RLEOverStream.

Section RLEReadBack.

Context (t : target).

Lemma read_n_two {Stream : Type} `{StreamReader t Stream}
    (m : nat) (s s' : Stream) (a b : Z) (l : list Z) :
  read_n t (S (S m)) s = Ok (a :: b :: l, s') ->
  exists s1 s2, stream_next t s = Ok (a, s1)
                /\ stream_next t s1 = Ok (b, s2)
                /\ read_n t m s2 = Ok (l, s').
Proof.
  cbn [read_n]. intros E.
  apply bind_ok in E. destruct E as ([a' s1] & E1 & E).
  apply bind_ok in E. destruct E as ([l1 s3] & E & E3).
  apply bind_ok in E. destruct E as ([b' s2] & E2 & E).
  apply bind_ok in E. destruct E as ([l2 s4] & E4 & E).
  injection E as <- <-. injection E3 as <- <- <- <-.
  exists s1, s2. auto.
Qed.

(** The reader over a stream that delivers [rle_out] returns the pending run
    and then the values, as long as no run counter wrapped. *)
Lemma rle_read {Stream : Type} `{StreamReader t Stream} (values : list Z) :
  forall (prev : Z) (c : nat) (s s' : Stream) (prev0 : Z),
  read_n t (length (rle_out t prev (Z.of_nat c) values)) s
    = Ok (rle_out t prev (Z.of_nat c) values, s') ->
  Z.of_nat (c + run_from prev values) < modulus t ->
  runs_below (modulus t) values = true ->
  values_of (read_n t (c + length values) (RLEStreamReader.Make s prev0 0))
    = Ok (repeat prev c ++ values).
Proof.
  pose proof (modulus_pos t) as Hm.
  induction values as [| v vs IH]; intros prev c s s' prev0 E Hc Hruns.
  - cbn [rle_out length] in E. cbn [run_from length] in Hc.
    rewrite Nat.add_0_r in *. rewrite app_nil_r.
    destruct c as [| k]; [reflexivity |].
    apply read_n_two in E. destruct E as (s1 & s2 & E1 & E2 & _).
    cbn [read_n]. rewrite (rle_next_fetch t s s1 s2 prev0 prev k E1 E2).
    change (values_of (read_n t (S k) (RLEStreamReader.Make s2 prev (Z.of_nat (S k))))
            = Ok (repeat prev (S k))).
    rewrite <- (Nat.add_0_r (S k)) at 1.
    rewrite rle_emit by assumption.
    cbn [read_n bind values_of]. rewrite app_nil_r. reflexivity.
  - cbn [runs_below] in Hruns. apply andb_true_iff in Hruns.
    destruct Hruns as [Hrun Hruns]. apply Z.ltb_lt in Hrun.
    cbn [rle_out] in E. cbn [run_from] in Hc. cbn [length].
    destruct (Z.eqb_spec v prev) as [-> | Hne]; cbn [negb] in E.
    + rewrite wrap_small in E by lia.
      replace (Z.of_nat c + 1) with (Z.of_nat (S c)) in E by lia.
      rewrite Nat.add_succ_r.
      replace (repeat prev c ++ prev :: vs) with (repeat prev (S c) ++ vs)
        by (cbn [repeat]; rewrite repeat_cons, <- app_assoc; reflexivity).
      apply (IH prev (S c) s s' prev0 E); [lia | assumption].
    + rewrite (wrap_small t (0 + 1)) in E by lia.
      change (0 + 1) with (Z.of_nat 1) in E.
      destruct c as [| k].
      * cbn [Z.of_nat Z.eqb negb app] in E. cbn [repeat app Nat.add].
        apply (IH v 1%nat s s' prev0 E); [lia | assumption].
      * replace (Z.of_nat (S k) =? 0) with false in E
          by (symmetry; apply Z.eqb_neq; lia).
        cbn [negb app length] in E.
        apply read_n_two in E. destruct E as (s1 & s2 & E1 & E2 & E).
        specialize (IH v 1%nat s2 s' prev E).
        cbn [Nat.add repeat app] in IH.
        cbn [Nat.add read_n].
        rewrite (rle_next_fetch t s s1 s2 prev0 prev k E1 E2).
        change (values_of (read_n t (S (k + S (length vs)))
                  (RLEStreamReader.Make s2 prev (Z.of_nat (S k))))
                = Ok (repeat prev (S k) ++ v :: vs)).
        change (S (k + S (length vs))) with (S k + S (length vs))%nat.
        rewrite rle_emit by lia.
        unfold values_of in *.
        destruct (read_n t (S (length vs)) (RLEStreamReader.Make s2 prev 0))
          as [[l s3] | | |]; cbn [bind] in *;
          try (exfalso; specialize (IH ltac:(lia) Hruns); discriminate).
        specialize (IH ltac:(lia) Hruns). injection IH as ->. reflexivity.
Qed.

End RLEReadBack.

(** ** Properties of the specification *)

(** X19: for a value type of at most 32 bits, encoding a value into a
    growable buffer and decoding it from there returns the value, for every
    value of the type. *)
Theorem varint_roundtrip_narrow (t : target) (v : Z) :
  bits (TVal t) <= 32 ->
  0 <= v < modulus t ->
  varint_roundtrip t v = Ok v.
Proof.
  intros Hb Hv. unfold varint_roundtrip.
  destruct (put_back_total t v [] Hv) as (bs & _ & E & L).
  rewrite E. cbn [bind].
  pose proof (get_put_back t v bs [] [] (length bs) Hb Hv E) as G.
  cbn [app length Nat.add] in G. rewrite app_nil_r in G.
  rewrite G by lia. reflexivity.
Qed.

(** C1, as stated, fails: value 128 needs two bytes; put into a range of one
    byte holding 0, the call returns [begin] but has replaced that byte
    by 0x80. *)
Lemma put_range_too_small_overwrites :
  put_back (target_of W8) (MkBase128Int 128) [] = Ok [128; 1]
  /\ put_range (MkBase128Int 128) [0] 0 1 = Ok (0%nat, [128])
  /\ put_range (MkBase128Int 128) [0] 0 1 <> Ok (0%nat, [0]).
Proof.
  repeat split; try reflexivity. discriminate.
Qed.

(** C1 (amended): when the range [begin, end) is too small for the full
    encoding, the bounded [put] returns [begin]; the bytes before [begin] and
    from [end] on are left as they were, and the range itself holds the first
    [end - begin] bytes of the encoding. *)
Theorem put_range_exhausted (t : target) (v : Z)
    (bs front old back : list byte_t) :
  0 <= v < modulus t ->
  put_back t (MkBase128Int v) [] = Ok bs ->
  (length old < length bs)%nat ->
  put_range (MkBase128Int v) (front ++ old ++ back)
      (length front) (length front + length old)
    = Ok (length front, front ++ firstn (length old) bs ++ back).
Proof.
  intros Hv E Hsmall.
  rewrite (put_range_spec t v bs front old back) by (try assumption; lia).
  replace (length bs <=? length old)%nat with false
    by (symmetry; apply Nat.leb_gt; exact Hsmall).
  reflexivity.
Qed.

Lemma put_range_exhausted_witness :
  put_range (MkBase128Int 300) ([9] ++ [7] ++ [8]) 1 2 = Ok (1%nat, [9; 172; 8]).
Proof.
  apply (put_range_exhausted (target_of W16) 300 [172; 2] [9] [7] [8]).
  - vm_compute. split; [discriminate | reflexivity].
  - reflexivity.
  - simpl. lia.
Defined.

(** C2, as stated, fails: the run-length writer forwards counts and values
    alternately (3, 100, 2, ...), so the delta writer below it is handed 2
    after 100 and the sixth [put] stops at its assertion. *)
Lemma rle_over_delta_rejected :
  rle_delta_roundtrip (target_of W32) [100; 100; 100; 105; 105; 110] = AssertFail
  /\ rle_delta_roundtrip (target_of W32) [100; 100; 100; 105; 105; 110]
     <> Ok [100; 100; 100; 105; 105; 110].
Proof.
  split; [reflexivity | discriminate].
Qed.

(** C2 (amended): with run-length over delta over the byte stream, the first
    five puts of [100,100,100,105,105,110] succeed and the sixth is rejected
    by the delta writer's assertion; with the transforms stacked the other
    way, delta over run-length over the byte stream, putting the six values,
    closing and reading six values back yields the sequence. *)
Theorem delta_over_rle_roundtrip (t : target) :
  (exists w,
      put_all t
        (RLEStreamWriter.new (DeltaStreamWriter.new (Base128StreamWriter.Make [])))
        [100; 100; 100; 105; 105] = Ok w
      /\ stream_put t w 110 = AssertFail)
  /\ delta_rle_roundtrip t [100; 100; 100; 105; 105; 110]
     = Ok [100; 100; 100; 105; 105; 110].
Proof.
  destruct t as [w f].
  split.
  - exists (RLEStreamWriter.Make
              (DeltaStreamWriter.Make (Base128StreamWriter.Make [3; 97]) 100)
              105 2).
    split; destruct w; vm_compute; reflexivity.
  - destruct w; vm_compute; reflexivity.
Qed.

(** C3: with a 64-bit value type the decoder does not return the value
    2^31: the fifth group, 8, is shifted by 28 as an [int], which gives
    INT_MIN, and the conversion to the value type sets bits 32 to 63. *)
Theorem varint_roundtrip_64_sign_extends (f : Z -> Z -> Z) :
  put_back (Target W64 f) (MkBase128Int (2 ^ 31)) [] = Ok [128; 128; 128; 128; 8]
  /\ varint_roundtrip (Target W64 f) (2 ^ 31) = Ok (2 ^ 64 - 2 ^ 31)
  /\ varint_roundtrip (Target W64 f) (2 ^ 31) <> Ok (2 ^ 31).
Proof.
  repeat split; try (vm_compute; reflexivity).
  vm_compute. discriminate.
Qed.

(** C4: with a 64-bit value type the one-element non-decreasing sequence
    [2^31] is not read back: the delta 2^31 is decoded as 2^64 - 2^31. *)
Theorem delta_roundtrip_64_sign_extends (f : Z -> Z -> Z) :
  ascending 0 [2 ^ 31] = true
  /\ delta_roundtrip (Target W64 f) [2 ^ 31] = Ok [2 ^ 64 - 2 ^ 31]
  /\ delta_roundtrip (Target W64 f) [2 ^ 31] <> Ok [2 ^ 31].
Proof.
  repeat split; try (vm_compute; reflexivity).
  vm_compute. discriminate.
Qed.

(** C5, as stated, fails: with an 8-bit value type the run counter wraps to
    0 at the 256th equal value, the run is then never committed, and only
    the pair (1, 6) reaches the bytes. *)
Lemma rle_long_run_lost :
  rle_encode (target_of W8) (repeat 5 256 ++ [6]) = Ok [1; 6]
  /\ rle_roundtrip (target_of W8) (repeat 5 256 ++ [6])
     <> Ok (repeat 5 256 ++ [6]).
Proof.
  split; [vm_compute; reflexivity | vm_compute; discriminate].
Qed.

(** C5 (amended): for a value type of at most 32 bits and every sequence of
    its values in which each run of equal consecutive values is shorter than
    the modulus of the run counter (2^bits), putting each element through the
    run-length writer over the byte stream, closing once and reading as many
    values back through the run-length reader over the same bytes reproduces
    the sequence, whatever the lengths of its runs. *)
Theorem rle_roundtrip_narrow (t : target) (values : list Z) :
  bits (TVal t) <= 32 ->
  forallb (representable t) values = true ->
  runs_below (modulus t) values = true ->
  rle_roundtrip t values = Ok values.
Proof.
  intros Hb Hr Hruns. pose proof (modulus_pos t) as Hm.
  assert (Hout : forallb (representable t) (rle_out t 0 0 values) = true)
    by (apply rle_out_representable; try assumption; lia).
  destruct (base_roundtrip t (rle_out t 0 0 values) Hb Hout [])
    as (d' & W & R).
  pose proof (rle_put_all_close t values (Base128StreamWriter.Make []) 0 0) as P.
  rewrite W in P. cbn [app] in P.
  unfold rle_roundtrip, rle_encode, RLEStreamWriter.new.
  destruct (put_all t (RLEStreamWriter.Make (Base128StreamWriter.Make []) 0 0) values)
    as [w | | |]; cbn [bind] in *; try discriminate.
  destruct (stream_close t w) as [w' | | |]; cbn [bind] in *; try discriminate.
  injection P as ->. cbn [Base128StreamWriter.data_].
  unfold rle_decode, RLEStreamReader.new, Base128StreamReader.new.
  specialize (R [] (length d')). cbn [app length Nat.add] in R.
  rewrite app_nil_r in R. specialize (R (Nat.le_refl _)).
  assert (Hrun0 : Z.of_nat (0 + run_from 0 values) < modulus t).
  { destruct values as [| v vs]; [simpl; lia |].
    cbn [runs_below] in Hruns. apply andb_true_iff in Hruns.
    destruct Hruns as [Hrun _]. apply Z.ltb_lt in Hrun.
    cbn [run_from Nat.add]. destruct (v =? 0) eqn:Ev; [| lia].
    apply Z.eqb_eq in Ev. subst v. lia. }
  apply (rle_read t values 0 0%nat _ _ 0 R Hrun0 Hruns).
Qed.

Lemma rle_roundtrip_narrow_witness :
  rle_roundtrip (target_of W16) [7; 7; 0; 0; 0; 9; 7] = Ok [7; 7; 0; 0; 0; 9; 7].
Proof.
  apply (rle_roundtrip_narrow (target_of W16) [7; 7; 0; 0; 0; 9; 7]).
  - simpl. lia.
  - reflexivity.
  - reflexivity.
Defined.

(** C6: once 5 has been put to a delta writer, [put(3)] is rejected by the
    assertion [value >= prev_]; no delta is forwarded. *)
Theorem delta_put_rejects_decrease (t : target) (Stream : Type)
    `{StreamWriter t Stream} (w w' : DeltaStreamWriter.self Stream) :
  stream_put t w 5 = Ok w' ->
  stream_put t w' 3 = AssertFail.
Proof.
  cbn [stream_put DeltaStreamWriter_stream]. unfold DeltaStreamWriter.put.
  intros E.
  apply bind_ok in E. destruct E as (u & _ & E).
  apply bind_ok in E. destruct E as (s & _ & E).
  injection E as <-. reflexivity.
Qed.

Lemma delta_put_rejects_decrease_witness :
  stream_put (target_of W32)
    (DeltaStreamWriter.Make (Base128StreamWriter.Make [5]) 5) 3 = AssertFail.
Proof.
  apply (delta_put_rejects_decrease (target_of W32) Base128StreamWriter.self
           (DeltaStreamWriter.new (Base128StreamWriter.Make []))).
  reflexivity.
Defined.

(** C7: a value that needs the largest number of groups, ceil(bits / 7), put
    into a range of exactly that many bytes: the call succeeds, the range
    holds the encoding and the position returned is [end], one past the last
    byte written. *)
Theorem put_range_exact_fit (t : target) (v : Z)
    (front old back : list byte_t) :
  2 ^ (7 * (Z.of_nat (max_groups (TVal t)) - 1)) <= v < modulus t ->
  length old = max_groups (TVal t) ->
  exists bs,
    put_back t (MkBase128Int v) [] = Ok bs
    /\ length bs = max_groups (TVal t)
    /\ put_range (MkBase128Int v) (front ++ old ++ back)
         (length front) (length front + length old)
       = Ok ((length front + length old)%nat, front ++ bs ++ back).
Proof.
  intros Hv Hlen.
  assert (H0 : 0 < 2 ^ (7 * (Z.of_nat (max_groups (TVal t)) - 1))).
  { apply Z.pow_pos_nonneg; [lia |]. destruct (TVal t); vm_compute; discriminate. }
  destruct (put_back_total t v []) as (bs & _ & E & _); [lia |].
  exists bs. split; [exact E |].
  assert (L : length bs = max_groups (TVal t)).
  { apply (put_loop_length _ v bs); [lia | exact E]. }
  split; [exact L |].
  rewrite (put_range_spec t v bs front old back) by (try assumption; lia).
  rewrite Hlen, L, Nat.leb_refl.
  rewrite <- Hlen at 2. rewrite skipn_all. reflexivity.
Qed.

Lemma put_range_exact_fit_witness :
  exists bs,
    put_back (target_of W32) (MkBase128Int (2 ^ 32 - 1)) [] = Ok bs
    /\ length bs = max_groups W32
    /\ put_range (MkBase128Int (2 ^ 32 - 1)) ([9] ++ [0; 0; 0; 0; 0] ++ [8])
         1 (1 + 5)
       = Ok ((1 + 5)%nat, [9] ++ bs ++ [8]).
Proof.
  apply (put_range_exact_fit (target_of W32) (2 ^ 32 - 1) [9] [0; 0; 0; 0; 0] [8]).
  - vm_compute. split; [discriminate | reflexivity].
  - reflexivity.
Defined.

(** C8: for [1,1,1,2,2,3] and [close], the run-length writer makes on the
    wrapped stream, whatever it is, exactly the puts 3, 1, 2, 2, 1, 3 (each
    count before its value); over the byte stream these are the bytes
    03 01 02 02 01 03, which the run-length reader decodes back to
    [1,1,1,2,2,3]. *)
Theorem rle_pairs_example (t : target) :
  (forall (Stream : Type) `(StreamWriter t Stream) (s : Stream),
      (w <- put_all t (RLEStreamWriter.new s) [1; 1; 1; 2; 2; 3] ;;
       w <- stream_close t w ;;
       Ok (RLEStreamWriter.stream_ w))
      = put_all t s [3; 1; 2; 2; 1; 3])
  /\ rle_encode t [1; 1; 1; 2; 2; 3] = Ok [3; 1; 2; 2; 1; 3]
  /\ rle_decode t 6 [3; 1; 2; 2; 1; 3] = Ok [1; 1; 1; 2; 2; 3].
Proof.
  split; [| split].
  - intros Stream H s. unfold RLEStreamWriter.new.
    rewrite rle_put_all_close. f_equal.
    destruct t as [[] f]; reflexivity.
  - destruct t as [[] f]; vm_compute; reflexivity.
  - destruct t as [[] f]; vm_compute; reflexivity.
Qed.

(** C9: with [begin >= end] the bounded [put] returns [begin] at once and
    the buffer is as it was, whatever the stored value. *)
Theorem put_range_empty (self : Base128Int) (mem : list byte_t)
    (begin end_ : nat) :
  (end_ <= begin)%nat ->
  put_range self mem begin end_ = Ok (begin, mem).
Proof.
  intros H. unfold put_range.
  replace (end_ <=? begin)%nat with true by (symmetry; apply Nat.leb_le; exact H).
  reflexivity.
Qed.

Lemma put_range_empty_witness :
  put_range (MkBase128Int 300) [7; 8] 1 1 = Ok (1%nat, [7; 8]).
Proof.
  apply (put_range_empty (MkBase128Int 300) [7; 8] 1 1). lia.
Defined.

(** The decoding loop stops at the first byte with a clear high bit. *)
Lemma get_loop_stops (t : target) (j : nat) :
  forall (bytes : list byte_t) (acc cnt : Z) (p : nat) (bj : byte_t),
  nth_error bytes j = Some bj ->
  Z.land bj 0x80 = 0 ->
  (forall (i : nat) (b : byte_t),
      (i < j)%nat -> nth_error bytes i = Some b -> Z.land b 0x80 <> 0) ->
  exists value, get_loop t bytes acc cnt p = Ok (value, (p + S j)%nat).
Proof.
  induction j as [| j IH]; intros bytes acc cnt p bj Hj Hbit Hbefore.
  - destruct bytes as [| b rest]; [discriminate |].
    injection Hj as ->. cbn [get_loop]. rewrite Hbit. cbn [Z.eqb].
    rewrite Nat.add_1_r. eauto.
  - destruct bytes as [| b rest]; [discriminate |].
    cbn [nth_error] in Hj. cbn [get_loop].
    assert (Hb : Z.land b 0x80 <> 0) by (apply (Hbefore 0%nat); [lia | reflexivity]).
    apply Z.eqb_neq in Hb. rewrite Hb.
    destruct (IH rest (wrap t (Z.lor acc (shl_int t (Z.land b 0x7F) cnt)))
                (wrap t (cnt + 7)) (S p) bj Hj Hbit) as (value & E).
    { intros i b' Hi Hn. apply (Hbefore (S i)); [lia | exact Hn]. }
    exists value. rewrite E. do 2 f_equal. lia.
Qed.

(** C10: when some byte of [begin, end) has its high bit clear, and [k] is
    the position of the first such byte, [get] returns the position one past
    [k], which is at most [end].  [get] itself never compares with [end]:
    on the range [0, 1) of the bytes 80 00 it returns position 2. *)
Theorem get_stops_at_terminator (t : target) (mem : list byte_t)
    (begin end_ k : nat) (bk : byte_t) :
  (begin <= k < end_)%nat ->
  nth_error mem k = Some bk ->
  Z.land bk 0x80 = 0 ->
  (forall (j : nat) (b : byte_t),
      (begin <= j < k)%nat -> nth_error mem j = Some b ->
      Z.land b 0x80 <> 0) ->
  (exists value, get t mem begin end_ = Ok (value, S k) /\ (S k <= end_)%nat)
  /\ (exists value, get t [0x80; 0x00] 0 1 = Ok (value, 2%nat)).
Proof.
  intros Hk Hnth Hbit Hbefore. split.
  - unfold get.
    replace (begin <? end_)%nat with true by (symmetry; apply Nat.ltb_lt; lia).
    cbn [assert bind].
    destruct (get_loop_stops t (k - begin) (skipn begin mem) 0 0 begin bk)
      as (value & E).
    + rewrite nth_error_skipn. replace (begin + (k - begin))%nat with k by lia.
      exact Hnth.
    + exact Hbit.
    + intros i b Hi Hn. rewrite nth_error_skipn in Hn.
      apply (Hbefore (begin + i)%nat b); [lia | exact Hn].
    + exists value. split; [| lia].
      rewrite E. do 2 f_equal. lia.
  - destruct t as [[] f]; eexists; vm_compute; reflexivity.
Qed.

Lemma get_stops_at_terminator_witness :
  (exists value,
      get (target_of W32) [0x81; 0x80; 0x05; 0xFF] 0 4 = Ok (value, 3%nat)
      /\ (3 <= 4)%nat)
  /\ (exists value, get (target_of W32) [0x80; 0x00] 0 1 = Ok (value, 2%nat)).
Proof.
  apply (get_stops_at_terminator (target_of W32) [0x81; 0x80; 0x05; 0xFF]
           0 4 2 0x05).
  - lia.
  - reflexivity.
  - reflexivity.
  - intros j b Hj. destruct j as [| [| j]]; [| | lia];
      intros Hn; injection Hn as <-; discriminate.
Defined.

(** ** Further properties of the codec *)

(** X1: [Base128StreamWriter::put] of a value of the value type cannot fail;
    it keeps the bytes already in the buffer and appends between one and
    ceil(bits / 7) bytes, and [size] grows by that number. *)
Theorem base_put_appends (t : target) (v : Z) (s : Base128StreamWriter.self) :
  0 <= v < modulus t ->
  exists s' bs,
    stream_put t s v = Ok s'
    /\ Base128StreamWriter.data_ s' = Base128StreamWriter.data_ s ++ bs
    /\ (1 <= length bs <= max_groups (TVal t))%nat
    /\ stream_size t s' = (stream_size t s + length bs)%nat.
Proof.
  intros Hv.
  destruct (put_back_total t v (Base128StreamWriter.data_ s) Hv)
    as (bs & E & _ & L).
  exists (Base128StreamWriter.Make (Base128StreamWriter.data_ s ++ bs)), bs.
  cbn [stream_put stream_size Base128StreamWriter_stream].
  unfold Base128StreamWriter.put, Base128StreamWriter.size.
  rewrite E. cbn [bind Base128StreamWriter.data_]. rewrite length_app. auto.
Qed.

Lemma base_put_appends_witness :
  exists s' bs,
    stream_put (target_of W64) (Base128StreamWriter.Make [7]) 300 = Ok s'
    /\ Base128StreamWriter.data_ s'
       = Base128StreamWriter.data_ (Base128StreamWriter.Make [7]) ++ bs
    /\ (1 <= length bs <= max_groups (TVal (target_of W64)))%nat
    /\ stream_size (target_of W64) s'
       = Nat.add (stream_size (target_of W64) (Base128StreamWriter.Make [7]))
           (length bs).
Proof.
  apply (base_put_appends (target_of W64) 300 (Base128StreamWriter.Make [7])).
  vm_compute. split; [discriminate | reflexivity].
Defined.

Lemma put_loop_groups (k : nat) : forall (fuel : nat) (v : Z),
  (1 <= k <= fuel)%nat ->
  0 <= v < 128 ^ Z.of_nat k ->
  (k = 1%nat \/ 128 ^ (Z.of_nat k - 1) <= v) ->
  exists bs, put_loop fuel v [] = Ok bs /\ length bs = k.
Proof.
  induction k as [| k IH]; intros fuel v Hk Hv Hlow; [lia |].
  destruct fuel as [| fuel]; [lia |].
  rewrite put_loop_step by lia.
  destruct k as [| k].
  - change (128 ^ Z.of_nat 1) with 128 in Hv.
    replace (v <? 128) with true by (symmetry; apply Z.ltb_lt; lia).
    exists [v]. auto.
  - destruct Hlow as [Hlow | Hlow]; [lia |].
    replace (Z.of_nat (S (S k)) - 1) with (1 + Z.of_nat k) in Hlow by lia.
    replace (Z.of_nat (S (S k))) with (1 + Z.of_nat (S k)) in Hv by lia.
    rewrite Z.pow_add_r in Hlow, Hv by lia. change (128 ^ 1) with 128 in *.
    assert (0 < 128 ^ Z.of_nat k) by (apply Z.pow_pos_nonneg; lia).
    replace (v <? 128) with false by (symmetry; apply Z.ltb_ge; nia).
    rewrite put_loop_app.
    destruct (IH fuel (v / 128)) as (bs & E & L).
    + lia.
    + split; [apply Z.div_pos; lia | apply Z.div_lt_upper_bound; lia].
    + right. replace (Z.of_nat (S k) - 1) with (Z.of_nat k) by lia.
      apply Z.div_le_lower_bound; lia.
    + rewrite E. cbn [bind app]. eexists. split; [reflexivity |].
      simpl. lia.
Qed.

(** X2: the encoding is minimal: a value below 128 (0 included) is written
    as one byte, and a value with 128^(k-1) <= v < 128^k as exactly [k]
    bytes. *)
Theorem put_back_length (t : target) (v : Z) (k : nat) :
  0 <= v < modulus t ->
  (1 <= k)%nat ->
  v < 128 ^ Z.of_nat k ->
  (k = 1%nat \/ 128 ^ (Z.of_nat k - 1) <= v) ->
  exists bs, put_back t (MkBase128Int v) [] = Ok bs /\ length bs = k.
Proof.
  intros Hv Hk Hup Hlow. unfold put_back. cbn [value_].
  apply put_loop_groups; try assumption; try lia.
  split; [exact Hk |].
  destruct Hlow as [-> | Hlow]; [destruct (TVal t); vm_compute; lia |].
  destruct (Nat.le_gt_cases k (max_groups (TVal t))) as [| Hgt]; [assumption |].
  exfalso.
  assert (128 ^ Z.of_nat (max_groups (TVal t)) <= 128 ^ (Z.of_nat k - 1))
    by (apply Z.pow_le_mono_r; lia).
  pose proof (max_groups_bound (TVal t)) as Hb. unfold modulus in Hv.
  replace (2 ^ (7 * Z.of_nat (max_groups (TVal t))))
    with (128 ^ Z.of_nat (max_groups (TVal t))) in Hb
    by (rewrite Z.pow_mul_r by lia; reflexivity).
  lia.
Qed.

Lemma put_back_length_witness :
  exists bs, put_back (target_of W32) (MkBase128Int 16384) [] = Ok bs
             /\ length bs = 3%nat.
Proof.
  apply (put_back_length (target_of W32) 16384 3).
  - vm_compute. split; [discriminate | reflexivity].
  - lia.
  - reflexivity.
  - right. vm_compute. discriminate.
Defined.

Lemma put_loop_format (fuel : nat) : forall (v : Z) (bs : list byte_t),
  0 <= v ->
  put_loop fuel v [] = Ok bs ->
  exists front last_,
    bs = front ++ [last_]
    /\ Forall (fun b => 128 <= b < 256) front
    /\ 0 <= last_ < 128.
Proof.
  induction fuel as [| fuel IH]; intros v bs Hv E; [discriminate |].
  rewrite put_loop_step in E by lia.
  destruct (Z.ltb_spec v 128).
  - injection E as <-. exists [], v. repeat split; [constructor | lia | lia].
  - rewrite put_loop_app in E. apply bind_ok in E. destruct E as (bs' & E & E').
    injection E' as <-.
    destruct (IH (v / 128) bs') as (front & last_ & -> & F & L);
      [apply Z.div_pos; lia | exact E |].
    exists ((v mod 128 + 128) :: front), last_.
    repeat split; try lia.
    constructor; [| exact F].
    pose proof (Z.mod_pos_bound v 128). lia.
Qed.

(** X3: the encoding is self-delimiting: every byte but the last has its
    high bit set (it lies in 128..255) and the last byte has it clear (it
    lies in 0..127). *)
Theorem put_back_format (t : target) (v : Z) (bs : list byte_t) :
  0 <= v ->
  put_back t (MkBase128Int v) [] = Ok bs ->
  exists front last_,
    bs = front ++ [last_]
    /\ Forall (fun b => 128 <= b < 256) front
    /\ 0 <= last_ < 128.
Proof.
  intros Hv E. apply (put_loop_format _ v bs Hv E).
Qed.

Lemma put_back_format_witness :
  exists front last_,
    [172; 2] = front ++ [last_]
    /\ Forall (fun b => 128 <= b < 256) front
    /\ 0 <= last_ < 128.
Proof.
  apply (put_back_format (target_of W16) 300 [172; 2]).
  - lia.
  - reflexivity.
Defined.

(** X4: with room for the whole encoding, the bounded [put] writes exactly
    the bytes the growable [put] appends, returns the position after them
    and leaves the rest of the range, and everything outside it, as it was. *)
Theorem put_range_fits (t : target) (v : Z) (bs front old back : list byte_t) :
  0 <= v < modulus t ->
  put_back t (MkBase128Int v) [] = Ok bs ->
  (length bs <= length old)%nat ->
  put_range (MkBase128Int v) (front ++ old ++ back)
      (length front) (length front + length old)
    = Ok ((length front + length bs)%nat,
          front ++ bs ++ skipn (length bs) old ++ back).
Proof.
  intros Hv E Hfit.
  rewrite (put_range_spec t v bs front old back) by (try assumption; lia).
  replace (length bs <=? length old)%nat with true
    by (symmetry; apply Nat.leb_le; exact Hfit).
  reflexivity.
Qed.

Lemma put_range_fits_witness :
  put_range (MkBase128Int 300) ([9] ++ [1; 2; 3] ++ [8]) 1 (1 + 3)
    = Ok ((1 + 2)%nat, [9] ++ [172; 2] ++ [3] ++ [8]).
Proof.
  apply (put_range_fits (target_of W16) 300 [172; 2] [9] [1; 2; 3] [8]).
  - vm_compute. split; [discriminate | reflexivity].
  - reflexivity.
  - simpl. lia.
Defined.

(** X5: the error signal of the bounded [put] is unambiguous: the position
    returned is [begin] exactly when the range is too small for the
    encoding. *)
Theorem put_range_sentinel (t : target) (v : Z)
    (bs front old back mem' : list byte_t) (p : nat) :
  0 <= v < modulus t ->
  put_back t (MkBase128Int v) [] = Ok bs ->
  put_range (MkBase128Int v) (front ++ old ++ back)
      (length front) (length front + length old) = Ok (p, mem') ->
  p = length front <-> (length old < length bs)%nat.
Proof.
  intros Hv E P.
  destruct (put_back_total t v [] Hv) as (bs' & _ & E' & L).
  rewrite E in E'. injection E' as <-.
  rewrite (put_range_spec t v bs front old back) in P by (try assumption; lia).
  destruct (Nat.leb_spec (length bs) (length old)); injection P as <- _; lia.
Qed.

Lemma put_range_sentinel_witness :
  1%nat = length [9] <-> (length [7] < length [172; 2])%nat.
Proof.
  apply (put_range_sentinel (target_of W16) 300 [172; 2] [9] [7] [8]
           [9; 172; 8] 1).
  - vm_compute. split; [discriminate | reflexivity].
  - reflexivity.
  - reflexivity.
Defined.

(** X6: the bounded [put] never writes outside its range: whatever the value
    and the size of the range, the call returns, the bytes before [begin]
    and from [end] on are unchanged, the buffer keeps its length and the
    position returned lies in [begin, end]. *)
Theorem put_range_frame (t : target) (v : Z) (front old back : list byte_t) :
  0 <= v < modulus t ->
  exists p mid,
    put_range (MkBase128Int v) (front ++ old ++ back)
      (length front) (length front + length old)
      = Ok (p, front ++ mid ++ back)
    /\ length mid = length old
    /\ (length front <= p <= length front + length old)%nat.
Proof.
  intros Hv.
  destruct (put_back_total t v [] Hv) as (bs & _ & E & L).
  rewrite (put_range_spec t v bs front old back) by (try assumption; lia).
  destruct (Nat.leb_spec (length bs) (length old)) as [Hfit | Hsmall].
  - exists (length front + length bs)%nat, (bs ++ skipn (length bs) old).
    rewrite <- app_assoc. split; [reflexivity |].
    rewrite length_app, length_skipn. lia.
  - exists (length front), (firstn (length old) bs).
    split; [reflexivity |]. rewrite length_firstn. lia.
Qed.

Lemma put_range_frame_witness :
  exists p mid,
    put_range (MkBase128Int 300) ([9] ++ [7] ++ [8])
      (length [9]) (length [9] + length [7])
      = Ok (p, [9] ++ mid ++ [8])
    /\ length mid = length [7]
    /\ (length [9] <= p <= length [9] + length [7])%nat.
Proof.
  apply (put_range_frame (target_of W16) 300 [9] [7] [8]).
  vm_compute. split; [discriminate | reflexivity].
Defined.

(** X7: for a value type of at most 32 bits, a bounded [put] that succeeded
    is undone by [get] on the same range: it returns the value and the
    position [put] returned. *)
Theorem put_range_get (t : target) (v : Z)
    (front old back mem' : list byte_t) (p : nat) :
  bits (TVal t) <= 32 ->
  0 <= v < modulus t ->
  put_range (MkBase128Int v) (front ++ old ++ back)
      (length front) (length front + length old) = Ok (p, mem') ->
  p <> length front ->
  get t mem' (length front) (length front + length old)
    = Ok (MkBase128Int v, p).
Proof.
  intros Hb Hv P Hp.
  destruct (put_back_total t v [] Hv) as (bs & _ & E & L).
  rewrite (put_range_spec t v bs front old back) in P by (try assumption; lia).
  destruct (Nat.leb_spec (length bs) (length old)) as [Hfit | Hsmall];
    injection P as <- <-; [| contradiction].
  apply get_put_back; try assumption. lia.
Qed.

Lemma put_range_get_witness :
  get (target_of W16) [9; 172; 2; 3; 8] (length [9]) (length [9] + length [1; 2; 3])
    = Ok (MkBase128Int 300, 3%nat).
Proof.
  apply (put_range_get (target_of W16) 300 [9] [1; 2; 3] [8] [9; 172; 2; 3; 8] 3).
  - simpl. lia.
  - vm_compute. split; [discriminate | reflexivity].
  - reflexivity.
  - simpl. lia.
Defined.

Lemma get_loop_consumes (t : target) (fuel : nat) :
  forall (v : Z) (bs more : list byte_t) (acc cnt : Z) (p : nat),
  0 <= v ->
  put_loop fuel v [] = Ok bs ->
  exists value, get_loop t (bs ++ more) acc cnt p = Ok (value, (p + length bs)%nat).
Proof.
  induction fuel as [| fuel IH]; intros v bs more acc cnt p Hv E; [discriminate |].
  rewrite put_loop_step in E by lia.
  destruct (Z.ltb_spec v 128) as [Hsmall | Hbig].
  - injection E as <-. cbn [app get_loop length].
    rewrite land_0x80.
    replace (v / 128) with 0 by (symmetry; apply Z.div_small; lia).
    change (128 * (0 mod 2) =? 0) with true. cbv iota.
    rewrite Nat.add_1_r. eauto.
  - rewrite put_loop_app in E. apply bind_ok in E. destruct E as (bs' & E & E').
    injection E' as <-. cbn [app get_loop length].
    pose proof (Z.mod_pos_bound v 128 ltac:(lia)) as Hi.
    rewrite land_0x80.
    replace ((v mod 128 + 128) / 128) with 1 by (Z.div_mod_to_equations; lia).
    change (128 * (1 mod 2) =? 0) with false. cbv iota.
    destruct (IH (v / 128) bs' more
                (wrap t (Z.lor acc (shl_int t (Z.land (v mod 128 + 128) 0x7F) cnt)))
                (wrap t (cnt + 7)) (S p)) as (value & G);
      [apply Z.div_pos; lia | exact E |].
    exists value. rewrite G. do 2 f_equal. lia.
Qed.

(** X8: for every value type, 64 bits included, [get] consumes exactly the
    bytes [put] wrote: placed at the first byte of an encoding it returns the
    position after its last byte, whatever follows and whatever value it
    reconstructs. *)
Theorem get_consumes_encoding (t : target) (v : Z)
    (bs front more : list byte_t) (end_ : nat) :
  0 <= v ->
  put_back t (MkBase128Int v) [] = Ok bs ->
  (length front < end_)%nat ->
  exists value,
    get t (front ++ bs ++ more) (length front) end_
      = Ok (value, (length front + length bs)%nat).
Proof.
  intros Hv E He. unfold get.
  replace (length front <? end_)%nat with true
    by (symmetry; apply Nat.ltb_lt; exact He).
  cbn [assert bind].
  rewrite skipn_app, skipn_all, Nat.sub_diag. cbn [skipn app].
  apply (get_loop_consumes t _ v bs more 0 0 (length front) Hv E).
Qed.

Lemma get_consumes_encoding_witness :
  exists value,
    get (target_of W64) ([9] ++ [255; 255; 255; 255; 255; 255; 255; 255; 255; 1]
                         ++ [8]) 1 12
      = Ok (value, (1 + 10)%nat).
Proof.
  apply (get_consumes_encoding (target_of W64) (2 ^ 64 - 1)
           [255; 255; 255; 255; 255; 255; 255; 255; 255; 1] [9] [8] 12).
  - vm_compute. discriminate.
  - vm_compute. reflexivity.
  - simpl. lia.
Defined.

(** A defined [int] shift of a group above the accumulated bits, or-ed into
    them: the 32-bit pattern of the sum, read as an [int]. *)
Lemma lor_to_int (acc i cnt : Z) :
  0 <= cnt < 32 -> 0 <= acc < 2 ^ cnt -> 0 <= i ->
  acc + i * 2 ^ cnt < 2 ^ 32 ->
  Z.lor acc (to_int (i * 2 ^ cnt)) = to_int (acc + i * 2 ^ cnt).
Proof.
  intros Hc Ha Hi Hlt. unfold to_int.
  assert (Hp : 0 < 2 ^ cnt) by (apply Z.pow_pos_nonneg; lia).
  assert (H31 : 2 ^ 31 = 2 ^ (31 - cnt) * 2 ^ cnt)
    by (rewrite <- Z.pow_add_r by lia; f_equal; lia).
  assert (H32 : 2 ^ 32 = 2 ^ (32 - cnt) * 2 ^ cnt)
    by (rewrite <- Z.pow_add_r by lia; f_equal; lia).
  destruct (Z.ltb_spec (i * 2 ^ cnt) (2 ^ 31)) as [Hlow | Hhigh].
  - rewrite lor_disjoint by lia.
    replace (acc + i * 2 ^ cnt <? 2 ^ 31) with true; [reflexivity |].
    symmetry. apply Z.ltb_lt.
    assert (i < 2 ^ (31 - cnt)) by nia.
    assert ((i + 1) * 2 ^ cnt <= 2 ^ (31 - cnt) * 2 ^ cnt)
      by (apply Z.mul_le_mono_nonneg_r; lia).
    lia.
  - replace (acc + i * 2 ^ cnt <? 2 ^ 31) with false
      by (symmetry; apply Z.ltb_ge; lia).
    replace (i * 2 ^ cnt - 2 ^ 32) with ((i - 2 ^ (32 - cnt)) * 2 ^ cnt)
      by (rewrite H32; ring).
    rewrite lor_disjoint by lia. rewrite H32. ring.
Qed.

(** Decoding an encoding whose value fits 32 bits takes only defined
    shifts, for every value type: the result is the value's 32-bit pattern
    read as an [int] and converted to the value type. *)
Lemma get_loop_int (t : target) (fuel : nat) :
  forall (v : Z) (bs more : list byte_t) (acc cnt : Z) (p : nat),
  put_loop fuel v [] = Ok bs ->
  0 <= v -> 0 <= cnt -> 0 <= acc < 2 ^ cnt ->
  (cnt = 0 \/ 0 < v) ->
  acc + v * 2 ^ cnt < 2 ^ 32 ->
  acc + v * 2 ^ cnt < modulus t ->
  get_loop t (bs ++ more) acc cnt p
    = Ok (MkBase128Int (wrap t (to_int (acc + v * 2 ^ cnt))),
          (p + length bs)%nat).
Proof.
  induction fuel as [| fuel IH];
    intros v bs more acc cnt p E Hv Hc Ha Hpos H32 Hlt; [discriminate |].
  rewrite put_loop_step in E by lia.
  assert (Hp : 0 < 2 ^ cnt) by (apply Z.pow_pos_nonneg; lia).
  assert (Hcnt : cnt < 32).
  { destruct Hpos as [-> | Hpos]; [lia |].
    destruct (Z.ltb_spec cnt 32) as [| Hge]; [assumption | exfalso].
    assert (2 ^ 32 <= 2 ^ cnt) by (apply Z.pow_le_mono_r; lia). nia. }
  destruct (Z.ltb_spec v 128) as [Hsmall | Hbig].
  - injection E as <-. cbn [app get_loop length].
    rewrite land_0x7F, land_0x80, (Z.mod_small v 128) by lia.
    replace (v / 128) with 0 by (symmetry; apply Z.div_small; lia).
    change (128 * (0 mod 2) =? 0) with true. cbv iota.
    unfold shl_int.
    replace (cnt <? 32) with true by (symmetry; apply Z.ltb_lt; lia).
    replace (v * 2 ^ cnt <? 2 ^ 32) with true by (symmetry; apply Z.ltb_lt; lia).
    cbn [andb]. rewrite lor_to_int by lia.
    rewrite Nat.add_1_r. reflexivity.
  - rewrite put_loop_app in E. apply bind_ok in E. destruct E as (bs' & E & E').
    injection E' as <-. cbn [app get_loop length].
    set (i := v mod 128). set (q := v / 128).
    assert (Hi : 0 <= i < 128) by (apply Z.mod_pos_bound; lia).
    assert (Hq : 0 < q) by (apply Z.div_str_pos; lia).
    assert (Hv' : v = 128 * q + i) by (apply Z.div_mod; lia).
    assert (Hpow : 2 ^ (cnt + 7) = 128 * 2 ^ cnt)
      by (rewrite Z.pow_add_r by lia; change (2 ^ 7) with 128; lia).
    assert (Hc7 : cnt + 7 < 32).
    { destruct (Z.ltb_spec (cnt + 7) 32) as [| Hge]; [assumption | exfalso].
      assert (2 ^ 32 <= 2 ^ (cnt + 7)) by (apply Z.pow_le_mono_r; lia). nia. }
    assert (Hx : i * 2 ^ cnt < 2 ^ 31).
    { assert (2 ^ (cnt + 7) <= 2 ^ 31) by (apply Z.pow_le_mono_r; lia). nia. }
    rewrite land_0x7F, land_0x80.
    replace ((i + 128) mod 128) with i by (Z.div_mod_to_equations; lia).
    replace ((i + 128) / 128) with 1 by (Z.div_mod_to_equations; lia).
    change (128 * (1 mod 2) =? 0) with false. cbv iota.
    unfold shl_int at 1.
    replace (cnt <? 32) with true by (symmetry; apply Z.ltb_lt; lia).
    replace (i * 2 ^ cnt <? 2 ^ 32) with true by (symmetry; apply Z.ltb_lt; lia).
    cbn [andb]. unfold to_int at 1.
    replace (i * 2 ^ cnt <? 2 ^ 31) with true by (symmetry; apply Z.ltb_lt; lia).
    rewrite lor_disjoint by lia.
    pose proof (modulus_pos t) as Hm.
    rewrite (wrap_small t (acc + i * 2 ^ cnt)) by nia.
    rewrite (wrap_small t (cnt + 7)) by lia.
    rewrite (IH q bs' more) by (try assumption; try lia; nia).
    f_equal. f_equal; [do 3 f_equal; nia | lia].
Qed.

Lemma varint_roundtrip_int (t : target) (v : Z) :
  0 <= v < modulus t -> v < 2 ^ 32 ->
  varint_roundtrip t v = Ok (wrap t (to_int v)).
Proof.
  intros Hv H32. unfold varint_roundtrip.
  destruct (put_back_total t v [] Hv) as (bs & _ & E & L).
  rewrite E. cbn [bind]. unfold get.
  replace (0 <? length bs)%nat with true by (symmetry; apply Nat.ltb_lt; lia).
  cbn [assert bind skipn].
  pose proof (get_loop_int t _ v bs [] 0 0 0%nat E) as G.
  rewrite app_nil_r in G. rewrite G; try (simpl; lia).
  cbn [bind value_]. do 3 f_equal. simpl. lia.
Qed.

(** X9: for every value type, 64 bits included, encoding then decoding
    returns the value when it is below 2^31. *)
Theorem varint_roundtrip_below_2_31 (t : target) (v : Z) :
  0 <= v < modulus t -> v < 2 ^ 31 ->
  varint_roundtrip t v = Ok v.
Proof.
  intros Hv Hsmall.
  rewrite varint_roundtrip_int by lia.
  unfold to_int.
  replace (v <? 2 ^ 31) with true by (symmetry; apply Z.ltb_lt; lia).
  rewrite wrap_small by lia. reflexivity.
Qed.

Lemma varint_roundtrip_below_2_31_witness :
  varint_roundtrip (target_of W64) (2 ^ 31 - 1) = Ok (2 ^ 31 - 1).
Proof.
  apply (varint_roundtrip_below_2_31 (target_of W64) (2 ^ 31 - 1)).
  - vm_compute. split; [discriminate | reflexivity].
  - reflexivity.
Defined.

(** X10: with a 64-bit value type, every value from 2^31 to 2^32 - 1 is
    decoded with bits 32 to 63 set: the round trip returns
    v + 2^64 - 2^32, whatever an undefined shift would yield. *)
Theorem varint_roundtrip_64_high (f : Z -> Z -> Z) (v : Z) :
  2 ^ 31 <= v < 2 ^ 32 ->
  varint_roundtrip (Target W64 f) v = Ok (v + 2 ^ 64 - 2 ^ 32).
Proof.
  intros Hv.
  rewrite varint_roundtrip_int by (unfold modulus; simpl; lia).
  unfold to_int, wrap, modulus. cbn [TVal bits].
  replace (v <? 2 ^ 31) with false by (symmetry; apply Z.ltb_ge; lia).
  f_equal. Z.div_mod_to_equations. lia.
Qed.

Lemma varint_roundtrip_64_high_witness :
  varint_roundtrip (Target W64 shl_x86) (2 ^ 32 - 1)
    = Ok (2 ^ 32 - 1 + 2 ^ 64 - 2 ^ 32).
Proof.
  apply (varint_roundtrip_64_high shl_x86 (2 ^ 32 - 1)).
  vm_compute. split; [discriminate | reflexivity].
Defined.

Lemma varint_roundtrip_narrow_witness :
  varint_roundtrip (target_of W32) (2 ^ 32 - 1) = Ok (2 ^ 32 - 1).
Proof.
  apply (varint_roundtrip_narrow (target_of W32) (2 ^ 32 - 1)).
  - simpl. lia.
  - vm_compute. split; [discriminate | reflexivity].
Defined.

Lemma get_loop_unterminated (t : target) (bytes : list byte_t) :
  forall (acc cnt : Z) (p : nat),
  Forall (fun b => Z.land b 0x80 <> 0) bytes ->
  get_loop t bytes acc cnt p = OutOfBounds.
Proof.
  induction bytes as [| b rest IH]; intros acc cnt p F; [reflexivity |].
  inversion F as [| b' rest' Hb Hrest]; subst.
  cbn [get_loop]. apply Z.eqb_neq in Hb. rewrite Hb. apply IH. exact Hrest.
Qed.

(** X11: [get] has no bound of its own: when every byte from [begin] to the
    end of the buffer has its high bit set (or [begin] is at the end of the
    buffer), the loop runs off the buffer, whatever [end] is. *)
Theorem get_unterminated (t : target) (mem : list byte_t) (begin end_ : nat) :
  (begin < end_)%nat ->
  Forall (fun b => Z.land b 0x80 <> 0) (skipn begin mem) ->
  get t mem begin end_ = OutOfBounds.
Proof.
  intros He F. unfold get.
  replace (begin <? end_)%nat with true by (symmetry; apply Nat.ltb_lt; exact He).
  cbn [assert bind]. apply get_loop_unterminated. exact F.
Qed.

Lemma get_unterminated_witness :
  get (target_of W32) [5; 0x81; 0xFF] 1 3 = OutOfBounds.
Proof.
  apply (get_unterminated (target_of W32) [5; 0x81; 0xFF] 1 3).
  - lia.
  - cbn [skipn]. repeat constructor; vm_compute; discriminate.
Defined.

(** ** Further properties of the streams *)

(** X12: for a value type of at most 32 bits, the values put to a
    [Base128StreamWriter] over an empty buffer are returned, in order, by a
    [Base128StreamReader] over the bytes written; the reader is then at the
    end of the buffer and one more [next] fails the assertion
    [begin < end]. *)
Theorem base_stream_roundtrip (t : target) (values : list Z) :
  bits (TVal t) <= 32 ->
  forallb (representable t) values = true ->
  exists s r,
    put_all t (Base128StreamWriter.Make []) values = Ok s
    /\ read_n t (length values)
         (Base128StreamReader.new (Base128StreamWriter.data_ s)) = Ok (values, r)
    /\ stream_next t r = AssertFail.
Proof.
  intros Hb Hr.
  destruct (base_roundtrip t values Hb Hr []) as (d' & W & R).
  specialize (R [] (length d') (Nat.le_refl _)).
  cbn [app length Nat.add] in W, R. rewrite app_nil_r in R.
  exists (Base128StreamWriter.Make d'),
         (Base128StreamReader.Make d' (length d') (length d')).
  split; [exact W |]. split; [exact R |].
  cbn [stream_next Base128StreamReader_stream].
  unfold Base128StreamReader.next, get.
  cbn [Base128StreamReader.data_ Base128StreamReader.pos_ Base128StreamReader.end_].
  rewrite Nat.ltb_irrefl. reflexivity.
Qed.

Lemma base_stream_roundtrip_witness :
  exists s r,
    put_all (target_of W32) (Base128StreamWriter.Make []) [300; 0; 4294967295]
      = Ok s
    /\ read_n (target_of W32) (length [300; 0; 4294967295])
         (Base128StreamReader.new (Base128StreamWriter.data_ s))
       = Ok ([300; 0; 4294967295], r)
    /\ stream_next (target_of W32) r = AssertFail.
Proof.
  apply (base_stream_roundtrip (target_of W32) [300; 0; 4294967295]).
  - simpl. lia.
  - reflexivity.
Defined.

Lemma get_loop_advances (t : target) (bytes : list byte_t) :
  forall (acc cnt : Z) (p p' : nat) (value : Base128Int),
  get_loop t bytes acc cnt p = Ok (value, p') ->
  (p < p' <= p + length bytes)%nat.
Proof.
  induction bytes as [| b rest IH]; intros acc cnt p p' value E; [discriminate |].
  cbn [get_loop] in E. cbn [length].
  destruct (Z.land b 0x80 =? 0).
  - injection E as _ <-. lia.
  - apply IH in E. lia.
Qed.

(** X13: a [next] of the [Base128StreamReader] that returns a value has
    read inside the buffer: the buffer and the end bound are unchanged, the
    cursor was before the end bound, and it has moved forward to a position
    not beyond the end of the buffer. *)
Theorem base_next_advances (t : target) (r r' : Base128StreamReader.self) (v : Z) :
  stream_next t r = Ok (v, r') ->
  Base128StreamReader.data_ r' = Base128StreamReader.data_ r
  /\ Base128StreamReader.end_ r' = Base128StreamReader.end_ r
  /\ (Base128StreamReader.pos_ r < Base128StreamReader.end_ r)%nat
  /\ (Base128StreamReader.pos_ r < Base128StreamReader.pos_ r'
      <= length (Base128StreamReader.data_ r))%nat.
Proof.
  cbn [stream_next Base128StreamReader_stream].
  unfold Base128StreamReader.next, get. intros E.
  apply bind_ok in E. destruct E as ([value p'] & G & E).
  injection E as _ <-.
  cbn [Base128StreamReader.data_ Base128StreamReader.pos_ Base128StreamReader.end_].
  apply bind_ok in G. destruct G as (u & A & G).
  unfold assert in A.
  destruct (Nat.ltb_spec (Base128StreamReader.pos_ r) (Base128StreamReader.end_ r));
    [| discriminate].
  apply get_loop_advances in G. rewrite length_skipn in G.
  repeat split; try assumption; lia.
Qed.

Lemma base_next_advances_witness :
  Base128StreamReader.data_ (Base128StreamReader.Make [172; 2; 5] 2 3)
    = Base128StreamReader.data_ (Base128StreamReader.new [172; 2; 5])
  /\ Base128StreamReader.end_ (Base128StreamReader.Make [172; 2; 5] 2 3)
     = Base128StreamReader.end_ (Base128StreamReader.new [172; 2; 5])
  /\ Nat.lt (Base128StreamReader.pos_ (Base128StreamReader.new [172; 2; 5]))
       (Base128StreamReader.end_ (Base128StreamReader.new [172; 2; 5]))
  /\ Nat.lt (Base128StreamReader.pos_ (Base128StreamReader.new [172; 2; 5]))
       (Base128StreamReader.pos_ (Base128StreamReader.Make [172; 2; 5] 2 3))
  /\ Nat.le (Base128StreamReader.pos_ (Base128StreamReader.Make [172; 2; 5] 2 3))
       (length (Base128StreamReader.data_
                  (Base128StreamReader.new [172; 2; 5]))).
Proof.
  apply (base_next_advances (target_of W16)
           (Base128StreamReader.new [172; 2; 5])
           (Base128StreamReader.Make [172; 2; 5] 2 3) 300).
  reflexivity.
Defined.

Lemma delta_roundtrip_narrow_witness :
  delta_roundtrip (target_of W32) [3; 3; 10; 4294967295]
    = Ok [3; 3; 10; 4294967295].
Proof.
  apply (delta_roundtrip_narrow (target_of W32) [3; 3; 10; 4294967295]).
  - simpl. lia.
  - reflexivity.
  - reflexivity.
Defined.

(** X15: over the byte stream, the delta writer accepts exactly the
    non-decreasing sequences (from the zero baseline): every put of such a
    sequence succeeds, and for any other sequence the pass stops at the
    assertion. *)
Theorem delta_accepts_ascending (t : target) (values : list Z) :
  forall (d : list byte_t) (prev : Z),
  if ascending prev values
  then exists w,
      put_all t (DeltaStreamWriter.Make (Base128StreamWriter.Make d) prev) values
        = Ok w
  else put_all t (DeltaStreamWriter.Make (Base128StreamWriter.Make d) prev) values
       = AssertFail.
Proof.
  induction values as [| v vs IH]; intros d prev.
  - cbn [ascending put_all]. eauto.
  - cbn [ascending put_all stream_put DeltaStreamWriter_stream].
    unfold DeltaStreamWriter.put.
    cbn [DeltaStreamWriter.prev_ DeltaStreamWriter.stream_].
    destruct (prev <=? v); cbn [andb assert bind]; [| reflexivity].
    destruct (base_put t (wrap t (v - prev)) d (wrap_range t _))
      as (bs & _ & _ & P).
    rewrite P. cbn [bind]. apply IH.
Qed.

Lemma rle_put_repeat (t : target) {Stream : Type} `{StreamWriter t Stream}
    (s : Stream) (x : Z) (m : nat) : forall k : nat,
  Z.of_nat (k + m) < modulus t ->
  put_all t (RLEStreamWriter.Make s x (Z.of_nat k)) (repeat x m)
    = Ok (RLEStreamWriter.Make s x (Z.of_nat (k + m))).
Proof.
  induction m as [| m IH]; intros k Hk.
  - rewrite Nat.add_0_r. reflexivity.
  - cbn [repeat put_all stream_put RLEStreamWriter_stream].
    unfold RLEStreamWriter.put.
    cbn [RLEStreamWriter.stream_ RLEStreamWriter.prev_ RLEStreamWriter.reps_].
    rewrite Z.eqb_refl. cbn [negb bind].
    cbn [RLEStreamWriter.stream_ RLEStreamWriter.prev_ RLEStreamWriter.reps_].
    rewrite wrap_small by lia.
    replace (Z.of_nat k + 1) with (Z.of_nat (S k)) by lia.
    rewrite IH by lia. do 3 f_equal. lia.
Qed.

(** X16: the run-length writer holds a run back until it ends: [n] equal
    values ([1 <= n < 2^bits]) put to a new writer leave the wrapped stream,
    whatever it is, untouched, with the run pending in the writer; it is
    [close] that forwards the pair, the count [n] and then the value. *)
Theorem rle_single_run_pending (t : target) (Stream : Type)
    `{StreamWriter t Stream} (s : Stream) (x : Z) (n : nat) :
  (1 <= n)%nat ->
  Z.of_nat n < modulus t ->
  put_all t (RLEStreamWriter.new s) (repeat x n)
    = Ok (RLEStreamWriter.Make s x (Z.of_nat n))
  /\ stream_close t (RLEStreamWriter.Make s x (Z.of_nat n))
     = (s' <- put_all t s [Z.of_nat n; x] ;;
        Ok (RLEStreamWriter.Make s' x (Z.of_nat n))).
Proof.
  intros Hn Hlt. pose proof (modulus_pos t) as Hm. split.
  - destruct n as [| m]; [lia |].
    cbn [repeat put_all stream_put RLEStreamWriter_stream].
    unfold RLEStreamWriter.new, RLEStreamWriter.put.
    cbn [RLEStreamWriter.stream_ RLEStreamWriter.prev_ RLEStreamWriter.reps_].
    assert (E : (s1 <- (if negb (x =? 0)
                        then stream <- (if negb (0 =? 0)
                                        then RLEStreamWriter.commit t
                                               (RLEStreamWriter.Make s 0 0)
                                        else Ok s) ;;
                             Ok (RLEStreamWriter.Make stream x 0)
                        else Ok (RLEStreamWriter.Make s 0 0)) ;;
                 Ok (RLEStreamWriter.Make (RLEStreamWriter.stream_ s1)
                       (RLEStreamWriter.prev_ s1)
                       (wrap t (RLEStreamWriter.reps_ s1 + 1))))
                = Ok (RLEStreamWriter.Make s x (Z.of_nat 1))).
    { destruct (Z.eqb_spec x 0) as [-> | Hx]; cbn [negb Z.eqb bind];
        cbn [RLEStreamWriter.stream_ RLEStreamWriter.prev_ RLEStreamWriter.reps_];
        rewrite wrap_small by lia; reflexivity. }
    rewrite E. cbn [bind].
    rewrite (rle_put_repeat t s x m 1) by lia. reflexivity.
  - cbn [stream_close RLEStreamWriter_stream put_all].
    unfold RLEStreamWriter.close, RLEStreamWriter.commit.
    cbn [RLEStreamWriter.stream_ RLEStreamWriter.prev_ RLEStreamWriter.reps_].
    destruct (stream_put t s (Z.of_nat n)) as [s1 | | |]; cbn [bind];
      try reflexivity.
    destruct (stream_put t s1 x) as [s2 | | |]; reflexivity.
Qed.

Lemma rle_single_run_pending_witness :
  put_all (target_of W8)
      (RLEStreamWriter.new (Base128StreamWriter.Make [9])) (repeat 5 255)
    = Ok (RLEStreamWriter.Make (Base128StreamWriter.Make [9]) 5 (Z.of_nat 255))
  /\ stream_close (target_of W8)
       (RLEStreamWriter.Make (Base128StreamWriter.Make [9]) 5 (Z.of_nat 255))
     = (s' <- put_all (target_of W8) (Base128StreamWriter.Make [9])
                [Z.of_nat 255; 5] ;;
        Ok (RLEStreamWriter.Make s' 5 (Z.of_nat 255))).
Proof.
  apply (rle_single_run_pending (target_of W8) Base128StreamWriter.self
           (Base128StreamWriter.Make [9]) 5 255).
  - lia.
  - reflexivity.
Defined.

(** X17: a pair with count 0 is not an empty run for the reader: it returns
    the value and the decrement wraps the counter to 2^bits - 1, so the pair
    stands for 2^bits values.  A writer closed without any put writes such a
    pair, (0, 0), the bytes 00 00. *)
Theorem rle_zero_count_pair (t : target) (Stream : Type)
    `{StreamReader t Stream} (s s1 s2 : Stream) (prev0 x : Z) :
  stream_next t s = Ok (0, s1) ->
  stream_next t s1 = Ok (x, s2) ->
  stream_next t (RLEStreamReader.Make s prev0 0)
    = Ok (x, RLEStreamReader.Make s2 x (modulus t - 1))
  /\ rle_encode t [] = Ok [0; 0].
Proof.
  intros E1 E2. split.
  - cbn [stream_next RLEStreamReader_stream]. unfold RLEStreamReader.next.
    cbn [RLEStreamReader.stream_ RLEStreamReader.prev_ RLEStreamReader.reps_
         Z.eqb].
    rewrite E1. cbn [bind]. rewrite E2. cbn [bind].
    cbn [RLEStreamReader.stream_ RLEStreamReader.prev_ RLEStreamReader.reps_].
    do 3 f_equal. unfold wrap. pose proof (modulus_pos t).
    replace (0 - 1) with (modulus t - 1 + (-1) * modulus t) by ring.
    rewrite Z_mod_plus_full. apply Z.mod_small. lia.
  - destruct t as [[] f]; reflexivity.
Qed.

Lemma rle_zero_count_pair_witness :
  stream_next (target_of W8)
      (RLEStreamReader.Make (Base128StreamReader.new [0; 7]) 3 0)
    = Ok (7, RLEStreamReader.Make (Base128StreamReader.Make [0; 7] 2 2) 7
               (modulus (target_of W8) - 1))
  /\ rle_encode (target_of W8) [] = Ok [0; 0].
Proof.
  apply (rle_zero_count_pair (target_of W8) Base128StreamReader.self
           (Base128StreamReader.new [0; 7])
           (Base128StreamReader.Make [0; 7] 1 2)
           (Base128StreamReader.Make [0; 7] 2 2) 3 7).
  - reflexivity.
  - reflexivity.
Defined.

(** X18: delta over run-length over the byte stream is lossless for a value
    type of at most 32 bits: a non-decreasing sequence of its values whose
    differences have no run of 2^bits or more equal ones is returned by the
    symmetric reader stack after the puts and one [close]. *)
Theorem delta_rle_roundtrip_narrow (t : target) (values : list Z) :
  bits (TVal t) <= 32 ->
  forallb (representable t) values = true ->
  ascending 0 values = true ->
  runs_below (modulus t) (deltas t 0 values) = true ->
  delta_rle_roundtrip t values = Ok values.
Proof.
  intros Hb Hr Ha Hruns. pose proof (modulus_pos t) as Hm.
  set (ds := deltas t 0 values) in *.
  assert (Hds : forallb (representable t) ds = true)
    by apply deltas_representable.
  assert (Hout : forallb (representable t) (rle_out t 0 0 ds) = true)
    by (apply rle_out_representable; try assumption; lia).
  destruct (base_roundtrip t (rle_out t 0 0 ds) Hb Hout []) as (d' & W & R).
  pose proof (rle_put_all_close t ds (Base128StreamWriter.Make []) 0 0) as P.
  rewrite W in P. cbn [app] in P.
  unfold delta_rle_roundtrip, DeltaStreamWriter.new, RLEStreamWriter.new.
  rewrite (delta_put_all t values _ 0 Ha). fold ds.
  destruct (put_all t (RLEStreamWriter.Make (Base128StreamWriter.Make []) 0 0) ds)
    as [w | | |]; cbn [bind] in *; try discriminate.
  cbn [stream_close DeltaStreamWriter_stream]. unfold DeltaStreamWriter.close.
  cbn [DeltaStreamWriter.stream_ DeltaStreamWriter.prev_].
  destruct (stream_close t w) as [w' | | |]; cbn [bind] in *; try discriminate.
  cbn [DeltaStreamWriter.stream_].
  injection P as ->. cbn [Base128StreamWriter.data_].
  unfold DeltaStreamReader.new, RLEStreamReader.new, Base128StreamReader.new.
  rewrite delta_read_n.
  specialize (R [] (length d') (Nat.le_refl _)).
  cbn [app length Nat.add] in R. rewrite app_nil_r in R.
  assert (Hrun0 : Z.of_nat (0 + run_from 0 ds) < modulus t).
  { destruct ds as [| v vs]; [simpl; lia |].
    cbn [runs_below] in Hruns. apply andb_true_iff in Hruns.
    destruct Hruns as [Hrun _]. apply Z.ltb_lt in Hrun.
    cbn [run_from Nat.add]. destruct (v =? 0) eqn:Ev; [| lia].
    apply Z.eqb_eq in Ev. subst v. lia. }
  pose proof (rle_read t ds 0 0%nat _ _ 0 R Hrun0 Hruns) as G.
  cbn [Nat.add repeat app] in G. unfold ds in G at 1.
  rewrite deltas_length in G. unfold values_of in G.
  destruct (read_n t (length values) _) as [[l r] | | |]; cbn [bind] in *;
    try discriminate.
  injection G as ->. unfold ds. rewrite sums_deltas by assumption. reflexivity.
Qed.

Lemma delta_rle_roundtrip_narrow_witness :
  delta_rle_roundtrip (target_of W32) [10; 20; 30; 30; 30; 4000000000]
    = Ok [10; 20; 30; 30; 30; 4000000000].
Proof.
  apply (delta_rle_roundtrip_narrow (target_of W32)
           [10; 20; 30; 30; 30; 4000000000]).
  - simpl. lia.
  - reflexivity.
  - reflexivity.
  - reflexivity.
Defined.
